(** * The SparkApplication controller: status reconciliation

    A shallow embedding of [pkg/controller/controller.go].

    - Go strings are [string]; string-typed enumerations ([ApplicationStateType],
      [RestartPolicy], [PodPhase], ...) stay strings, with their constants.
    - Go maps are [gmap]; [Status.ExecutorState], which the code tests against
      nil, is an [option]: [None] is the nil map, [Some m] an allocated one.
    - [reflect.DeepEqual] on two statuses is decidable equality of their
      representations: a timestamp is an instant together with its monotonic
      reading and its location, the fields [DeepEqual] goes through.
    - [*SparkApplication] values are records: every mutation works on a
      [DeepCopy], so no two live pointers share a record that is written to.
    - Calls that leave the process are oracles over an abstract world [W]
      (API server, node directory, clock, UI service provisioning); what the
      controller does to the outside is listed, in order, in a trace: calls on
      the store, the error log, recorder events, submissions handed to the
      runner.  Informational logging is left out.
    - Every method that holds [s.mutex] for its whole body is one atomic state
      transformer; the goroutines are the interleavings of such steps.
    - The wiring ([New], [Start], the informer) is not modelled. *)

From stdpp Require Import base decidable option list strings gmap fin_maps pretty.
From Stdlib Require Import ZArith Lia.

Local Open Scope string_scope.
Local Open Scope list_scope.

(** ** Types of the API packages *)

Module v1alpha1.

Definition ApplicationStateType := string.

(** Modelled from the spec: package [v1alpha1] (the declarations of the
    state constants) is not among the sources; the six application states
    of the data model are taken as six distinct non-empty strings. *)
Definition NewState : ApplicationStateType := "NEW".
Definition SubmittedState : ApplicationStateType := "SUBMITTED".
Definition FailedSubmissionState : ApplicationStateType := "SUBMISSION_FAILED".
Definition RunningState : ApplicationStateType := "RUNNING".
Definition CompletedState : ApplicationStateType := "COMPLETED".
Definition FailedState : ApplicationStateType := "FAILED".

Definition ExecutorStateType := string.

(** Modelled from the spec: the worker states [Pending | Running |
    Completed | Failed | Unknown], declared in the same absent package. *)
Definition ExecutorPendingState : ExecutorStateType := "PENDING".
Definition ExecutorRunningState : ExecutorStateType := "RUNNING".
Definition ExecutorCompletedState : ExecutorStateType := "COMPLETED".
Definition ExecutorFailedState : ExecutorStateType := "FAILED".
Definition ExecutorUnknownState : ExecutorStateType := "UNKNOWN".

Definition RestartPolicyType := string.

(** Modelled from the spec: [Never | OnFailure | Always | Undefined], with
    [Undefined] the zero value of the string type. *)
Definition Undefined : RestartPolicyType := "".
Definition Never : RestartPolicyType := "Never".
Definition OnFailure : RestartPolicyType := "OnFailure".
Definition Always : RestartPolicyType := "Always".

(** [metav1.Time], a wrapped [time.Time]: the instant, counted from Go's
    zero instant, the reading of the monotonic clock when the value carries
    one, and the location the value is expressed in (nil is UTC).
    [reflect.DeepEqual] tells two values apart on any of the three, so two
    values of one instant need not be equal; [IsZero] looks at the instant
    alone. *)
Record Time := mkTime {
  instant : Z;
  monotonic : option Z;
  location : option string
}.

Definition IsZero (t : Time) : bool := Z.eqb (instant t) 0%Z.

(** the zero value of the type *)
Definition zeroTime : Time := mkTime 0%Z None None.

(** an instant as it comes out of the store: no monotonic reading, UTC *)
Definition utc (n : Z) : Time := mkTime n None None.

Record ApplicationState := mkApplicationState {
  State : ApplicationStateType;
  ErrorMessage : string
}.

Record DriverInfoType := mkDriverInfo {
  WebUIPort : Z;
  WebUIAddress : string;
  PodName : string
}.

Record SparkApplicationStatus := mkStatus {
  AppID : string;
  SubmissionTime : Time;
  CompletionTime : Time;
  DriverInfo : DriverInfoType;
  AppState : ApplicationState;
  ExecutorState : option (gmap string ExecutorStateType)
}.

Record SparkApplicationSpec := mkSpec {
  RestartPolicy : RestartPolicyType;
  SubmissionByUser : bool
}.

Record SparkApplication := mkApp {
  Name : string;
  Namespace : string;
  UID : string;
  ResourceVersion : string;
  Spec : SparkApplicationSpec;
  Status : SparkApplicationStatus
}.

(** [v1alpha1.SparkApplicationStatus{}] *)
Definition zeroStatus : SparkApplicationStatus :=
  mkStatus "" zeroTime zeroTime (mkDriverInfo 0%Z "" "") (mkApplicationState "" "") None.

#[global] Instance Time_eq_dec : EqDecision Time.
Proof. solve_decision. Defined.
#[global] Instance ApplicationState_eq_dec : EqDecision ApplicationState.
Proof. solve_decision. Defined.
#[global] Instance DriverInfo_eq_dec : EqDecision DriverInfoType.
Proof. solve_decision. Defined.
#[global] Instance SparkApplicationStatus_eq_dec : EqDecision SparkApplicationStatus.
Proof. solve_decision. Defined.
#[global] Instance SparkApplicationSpec_eq_dec : EqDecision SparkApplicationSpec.
Proof. solve_decision. Defined.
#[global] Instance SparkApplication_eq_dec : EqDecision SparkApplication.
Proof. solve_decision. Defined.

End v1alpha1.
Import v1alpha1.

Module apiv1.

Definition PodPhase := string.
Definition PodPending : PodPhase := "Pending".
Definition PodRunning : PodPhase := "Running".
Definition PodSucceeded : PodPhase := "Succeeded".
Definition PodFailed : PodPhase := "Failed".
Definition PodUnknown : PodPhase := "Unknown".

Definition NodeAddressType := string.
Definition NodeExternalIP : NodeAddressType := "ExternalIP".
Definition NodeInternalIP : NodeAddressType := "InternalIP".

Record NodeAddress := mkNodeAddress {
  Type_ : NodeAddressType;
  Address : string
}.

(** Only [node.Status.Addresses] is read. *)
Record Node := mkNode { Addresses : list NodeAddress }.

End apiv1.
Import apiv1.

(** ** Field updates on the working copy *)

Definition withStatus (st : SparkApplicationStatus) (a : SparkApplication) : SparkApplication :=
  mkApp (Name a) (Namespace a) (UID a) (ResourceVersion a) (Spec a) st.

Definition setAppID (v : string) (a : SparkApplication) : SparkApplication :=
  let s := Status a in
  withStatus (mkStatus v (SubmissionTime s) (CompletionTime s) (DriverInfo s) (AppState s)
                (ExecutorState s)) a.

Definition setSubmissionTime (v : Time) (a : SparkApplication) : SparkApplication :=
  let s := Status a in
  withStatus (mkStatus (AppID s) v (CompletionTime s) (DriverInfo s) (AppState s)
                (ExecutorState s)) a.

Definition setCompletionTime (v : Time) (a : SparkApplication) : SparkApplication :=
  let s := Status a in
  withStatus (mkStatus (AppID s) (SubmissionTime s) v (DriverInfo s) (AppState s)
                (ExecutorState s)) a.

Definition setDriverInfo (v : DriverInfoType) (a : SparkApplication) : SparkApplication :=
  let s := Status a in
  withStatus (mkStatus (AppID s) (SubmissionTime s) (CompletionTime s) v (AppState s)
                (ExecutorState s)) a.

Definition setAppState (v : ApplicationState) (a : SparkApplication) : SparkApplication :=
  let s := Status a in
  withStatus (mkStatus (AppID s) (SubmissionTime s) (CompletionTime s) (DriverInfo s) v
                (ExecutorState s)) a.

Definition setExecutorState (v : option (gmap string ExecutorStateType)) (a : SparkApplication)
  : SparkApplication :=
  let s := Status a in
  withStatus (mkStatus (AppID s) (SubmissionTime s) (CompletionTime s) (DriverInfo s) (AppState s)
                v) a.

Definition setState (v : ApplicationStateType) (a : SparkApplication) : SparkApplication :=
  setAppState (mkApplicationState v (ErrorMessage (AppState (Status a)))) a.

Definition setErrorMessage (v : string) (a : SparkApplication) : SparkApplication :=
  setAppState (mkApplicationState (State (AppState (Status a))) v) a.

Definition setPodName (v : string) (a : SparkApplication) : SparkApplication :=
  let d := DriverInfo (Status a) in
  setDriverInfo (mkDriverInfo (WebUIPort d) (WebUIAddress d) v) a.

Definition setWebUIAddress (v : string) (a : SparkApplication) : SparkApplication :=
  let d := DriverInfo (Status a) in
  setDriverInfo (mkDriverInfo (WebUIPort d) v (PodName d)) a.

(** The state of the record, [app.Status.AppState.State]. *)
Definition appStateOf (a : SparkApplication) : ApplicationStateType :=
  State (AppState (Status a)).

(** ** Pure helpers of the controller *)

Definition maximumUpdateRetries : nat := 3.

Definition isAppTerminated (appState : ApplicationStateType) : bool :=
  bool_decide (appState = CompletedState) || bool_decide (appState = FailedState).

Definition driverPodPhaseToApplicationState (podPhase : PodPhase) : ApplicationStateType :=
  if bool_decide (podPhase = PodPending) then SubmittedState
  else if bool_decide (podPhase = PodRunning) then RunningState
  else if bool_decide (podPhase = PodSucceeded) then CompletedState
  else if bool_decide (podPhase = PodFailed) then FailedState
  else "".

(** ** Errors, logs and the observable trace *)

(** A Go [error] value coming back from a client call. *)
Inductive error :=
| VersionConflict
| NotFound
| OtherError (msg : string).

Inductive result (A : Type) :=
| Ok (a : A)
| Err (e : error).
Arguments Ok {A} a.
Arguments Err {A} e.

(** What [newSubmission(submissionCmdArgs, app)] packs for the runner. *)
Record submission := newSubmission {
  subArgs : list string;
  subApp : SparkApplication
}.

(** The three [glog.Errorf] call sites. *)
Inductive LogEntry :=
| FailedToGetSparkApplication (name : string) (err : error)
| FailedToGetNode (nodeName : string)
| FailedToBuildSubmissionCommand (name : string) (err : error).

(** Everything the controller does that is visible outside of it, in the order
    it happens.  [CallUpdateFunc] marks one invocation of the mutation passed
    to the status updater. *)
Inductive Event :=
| CallUpdateFunc
| ClientUpdate (namespace : string) (app : SparkApplication)
| ClientGet (namespace name : string)
| ErrorLog (l : LogEntry)
| RecorderEvent (app : SparkApplication) (reason message : string)
| RunnerSubmit (s : submission).

Definition isClientUpdate (e : Event) : bool :=
  match e with ClientUpdate _ _ => true | _ => false end.
Definition isClientGet (e : Event) : bool :=
  match e with ClientGet _ _ => true | _ => false end.
Definition isCallUpdateFunc (e : Event) : bool :=
  match e with CallUpdateFunc => true | _ => false end.
Definition isRunnerSubmit (e : Event) : bool :=
  match e with RunnerSubmit _ => true | _ => false end.
Definition isResubmission (e : Event) : bool :=
  match e with
  | RecorderEvent _ reason _ => bool_decide (reason = "SparkApplicationResubmission")
  | _ => false
  end.

Definition count (p : Event → bool) (t : list Event) : nat := length (filter (λ e, p e = true) t).

(** First address of external type, as the loop of [getNodeExternalIP]. *)
Fixpoint firstExternalIP (addresses : list NodeAddress) : string :=
  match addresses with
  | [] => ""
  | address :: rest =>
      if bool_decide (Type_ address = NodeExternalIP) then Address address
      else firstExternalIP rest
  end.

(** ** Messages on the three reporting channels *)

Module appStateUpdate.
Record t := mk {
  appID : string;
  submissionTime : Time;
  completionTime : Time;
  state : ApplicationStateType;
  errorMessage : string
}.
End appStateUpdate.

Module driverStateUpdate.
Record t := mk {
  appID : string;
  podName : string;
  nodeName : string;
  podPhase : PodPhase
}.
End driverStateUpdate.

Module executorStateUpdate.
Record t := mk {
  appID : string;
  podName : string;
  executorID : string;
  state : ExecutorStateType
}.
End executorStateUpdate.

Section Controller.

(** The world outside the process: API server, cluster, clock. *)
Context {W : Type}.

(** ** The collaborators *)
Record Env := mkEnv {
  (** [crdClient...SparkApplications(ns).Update(app)] *)
  clientUpdate : string → SparkApplication → W → result SparkApplication * W;
  (** [crdClient...SparkApplications(ns).Get(name, GetOptions{})] *)
  clientGet : string → string → W → result SparkApplication * W;
  (** [kubeClient.CoreV1().Nodes().Get(nodeName, GetOptions{})]: a call like
      the others, whose answer may differ the next time it is made *)
  nodesGet : string → W → result Node * W;
  (** [time.Now().UnixNano()] *)
  unixNano : W → Z * W;
  (** [util.NewHash32()], fed the written bytes, then [Sum32()] *)
  hash32 : string → Z;
  (** [createSparkUIService(app, kubeClient)], declared elsewhere *)
  createSparkUIService : SparkApplication → W → SparkApplication * W;
  (** [buildSubmissionCommandArgs(app)], declared elsewhere: both Go results *)
  buildSubmissionCommandArgs : SparkApplication → list string * option error
}.

Variable env : Env.

(** ** Mutation closures: they reach the cluster and the error log only *)
Definition K (A : Type) : Type := W → A * W * list LogEntry.

#[export] Instance K_ret : MRet K := λ A a w, (a, w, []).
#[export] Instance K_bind : MBind K := λ A B f m w,
  let '(a, w1, l1) := m w in
  let '(b, w2, l2) := f a w1 in
  (b, w2, l1 ++ l2).

Definition kLift {A} (f : W → A * W) : K A :=
  λ w, let '(a, w1) := f w in (a, w1, []).

(** ** The controller: world, registry and trace *)
Record CState := mkCState {
  world : W;
  runningApps : gmap string SparkApplication;
  trace : list Event
}.

Definition M (A : Type) : Type := CState → A * CState.

#[export] Instance M_ret : MRet M := λ A a s, (a, s).
#[export] Instance M_bind : MBind M := λ A B f m s,
  let '(a, s1) := m s in f a s1.

Definition emit (e : Event) : M unit :=
  λ s, (tt, mkCState (world s) (runningApps s) (trace s ++ [e])).

Definition liftW {A} (f : W → A * W) : M A :=
  λ s, let '(a, w) := f (world s) in (a, mkCState w (runningApps s) (trace s)).

Definition liftK {A} (m : K A) : M A :=
  λ s, let '(a, w, logs) := m (world s) in
       (a, mkCState w (runningApps s) (trace s ++ map ErrorLog logs)).

Definition registryLookup (appID : string) : M (option SparkApplication) :=
  λ s, (runningApps s !! appID, s).
Definition registryInsert (appID : string) (app : SparkApplication) : M unit :=
  λ s, (tt, mkCState (world s) (<[appID := app]> (runningApps s)) (trace s)).
Definition registryDelete (appID : string) : M unit :=
  λ s, (tt, mkCState (world s) (delete appID (runningApps s)) (trace s)).

(** ** [getNodeExternalIP] *)
Definition getNodeExternalIP (nodeName : string) : K string :=
  λ w, let '(r, w1) := nodesGet env nodeName w in
       match r with
       | Err _ => ("", w1, [FailedToGetNode nodeName])
       | Ok node => (firstExternalIP (Addresses node), w1, [])
       end.

(** ** [buildAppID]: [<name>-<hash>], the hash taken over name, namespace,
    uid and the decimal clock reading, written in that order *)
Definition buildAppID (app : SparkApplication) : K string :=
  λ w, let '(now, w1) := unixNano env w in
       let sum := hash32 env (Name app +:+ Namespace app +:+ UID app +:+ pretty now) in
       (Name app +:+ "-" +:+ pretty sum, w1, []).

(** ** [updateSparkApplicationWithRetries]

    [updateLoop n] is the [for] loop with [n] iterations left to run. *)
Fixpoint updateLoop (n : nat) (original toUpdate : SparkApplication)
    (updateFunc : SparkApplication → K SparkApplication) : M (option SparkApplication) :=
  match n with
  | O => mret None
  | S n' =>
      emit CallUpdateFunc;;
      toUpdate ← liftK (updateFunc toUpdate);
      if decide (Status original = Status toUpdate) then mret None
      else
        emit (ClientUpdate (Namespace toUpdate) toUpdate);;
        r ← liftW (clientUpdate env (Namespace toUpdate) toUpdate);
        match r with
        | Ok updated => mret (Some updated)
        | Err _ =>
            let name := Name toUpdate in
            emit (ClientGet (Namespace toUpdate) name);;
            r' ← liftW (clientGet env (Namespace toUpdate) name);
            match r' with
            | Err err =>
                emit (ErrorLog (FailedToGetSparkApplication name err));;
                mret None
            | Ok fetched => updateLoop n' original fetched updateFunc
            end
        end
  end.

Definition updateSparkApplicationWithRetries (original toUpdate : SparkApplication)
    (updateFunc : SparkApplication → K SparkApplication) : M (option SparkApplication) :=
  updateLoop maximumUpdateRetries original toUpdate updateFunc.

(** the state once the mutation has run *)
Definition mutated (s : CState) (w1 : W) (logs : list LogEntry) : CState :=
  mkCState w1 (runningApps s) (trace s ++ CallUpdateFunc :: map ErrorLog logs).

(** the state once the write of [m] has come back *)
Definition written (s : CState) (m : SparkApplication) (w2 : W) (logs : list LogEntry)
  : CState :=
  mkCState w2 (runningApps s)
    (trace s ++ CallUpdateFunc :: map ErrorLog logs ++ [ClientUpdate (Namespace m) m]).

(** the state once the read following a failed write of [m] has come back *)
Definition fetched (s : CState) (m : SparkApplication) (w3 : W) (logs : list LogEntry)
  : CState :=
  mkCState w3 (runningApps s)
    (trace s ++ CallUpdateFunc :: map ErrorLog logs
       ++ [ClientUpdate (Namespace m) m; ClientGet (Namespace m) (Name m)]).

(** ** The mutation closures handed to the status updater *)

(** closure of [submitApp] *)
Definition submitUpdateFunc (resubmission : bool) (toUpdate : SparkApplication)
  : K SparkApplication :=
  let toUpdate := if resubmission then withStatus zeroStatus toUpdate else toUpdate in
  appID ← buildAppID toUpdate;
  let toUpdate := setAppID appID toUpdate in
  let toUpdate := setState NewState toUpdate in
  kLift (createSparkUIService env toUpdate).

(** closure of [processSingleDriverStateUpdate] *)
Definition driverUpdateFunc (update : driverStateUpdate.t) (toUpdate : SparkApplication)
  : K SparkApplication :=
  let toUpdate := setPodName (driverStateUpdate.podName update) toUpdate in
  toUpdate ←
    (if bool_decide (driverStateUpdate.nodeName update ≠ "") then
       nodeIP ← getNodeExternalIP (driverStateUpdate.nodeName update);
       if bool_decide (nodeIP ≠ "") then
         mret (setWebUIAddress
                 (nodeIP +:+ ":" +:+ pretty (WebUIPort (DriverInfo (Status toUpdate))))
                 toUpdate)
       else mret toUpdate
     else mret toUpdate);
  let appState := driverPodPhaseToApplicationState (driverStateUpdate.podPhase update) in
  if isAppTerminated appState then mret (setState appState toUpdate) else mret toUpdate.

(** closure of [processSingleAppStateUpdate] *)
Definition appStateUpdateFunc (update : appStateUpdate.t) (toUpdate : SparkApplication)
  : K SparkApplication :=
  let toUpdate :=
    if negb (isAppTerminated (appStateOf toUpdate))
       || bool_decide (appStateUpdate.state update = FailedSubmissionState)
    then setErrorMessage (appStateUpdate.errorMessage update)
           (setState (appStateUpdate.state update) toUpdate)
    else toUpdate in
  let toUpdate :=
    if negb (IsZero (appStateUpdate.submissionTime update))
    then setSubmissionTime (appStateUpdate.submissionTime update) toUpdate
    else toUpdate in
  let toUpdate :=
    if negb (IsZero (appStateUpdate.completionTime update))
    then setCompletionTime (appStateUpdate.completionTime update) toUpdate
    else toUpdate in
  mret toUpdate.

(** closure of [processSingleExecutorStateUpdate]; the map is allocated
    before the state of the update is looked at *)
Definition executorUpdateFunc (update : executorStateUpdate.t) (toUpdate : SparkApplication)
  : K SparkApplication :=
  let toUpdate :=
    match ExecutorState (Status toUpdate) with
    | None => setExecutorState (Some ∅) toUpdate
    | Some _ => toUpdate
    end in
  let toUpdate :=
    if bool_decide (executorStateUpdate.state update ≠ ExecutorPendingState) then
      match ExecutorState (Status toUpdate) with
      | Some m =>
          setExecutorState
            (Some (<[executorStateUpdate.podName update := executorStateUpdate.state update]> m))
            toUpdate
      | None => toUpdate
      end
    else toUpdate in
  mret toUpdate.

(** what [submitApp] does after the registry insertion: the error log when
    the command could not be built, then the hand-over to the runner *)
Definition submissionEvents (updatedApp : SparkApplication) : list Event :=
  let '(submissionCmdArgs, err) := buildSubmissionCommandArgs env updatedApp in
  match err with
  | Some err => [ErrorLog (FailedToBuildSubmissionCommand (Name updatedApp) err)]
  | None => []
  end
  ++ (if negb (SubmissionByUser (Spec updatedApp))
      then [RunnerSubmit (newSubmission submissionCmdArgs updatedApp)]
      else []).

(** ** The methods holding the mutex *)

Definition submitApp (app : SparkApplication) (resubmission : bool) : M unit :=
  updatedApp ← updateSparkApplicationWithRetries app app (submitUpdateFunc resubmission);
  match updatedApp with
  | None => mret tt
  | Some updatedApp =>
      registryInsert (AppID (Status updatedApp)) updatedApp;;
      let '(submissionCmdArgs, err) := buildSubmissionCommandArgs env updatedApp in
      match err with
      | Some err => emit (ErrorLog (FailedToBuildSubmissionCommand (Name updatedApp) err))
      | None => mret tt
      end;;
      if negb (SubmissionByUser (Spec updatedApp)) then
        emit (RunnerSubmit (newSubmission submissionCmdArgs updatedApp))
      else mret tt
  end.

Definition onAdd (app : SparkApplication) : M unit :=
  emit (RecorderEvent app "SparkApplicationSubmission"
          ("Submitting SparkApplication: " +:+ Name app));;
  submitApp app false.

Definition onDelete (app : SparkApplication) : M unit :=
  emit (RecorderEvent app "SparkApplicationDeletion"
          ("Deleting SparkApplication: " +:+ Name app));;
  registryDelete (AppID (Status app)).

Definition processSingleDriverStateUpdate (update : driverStateUpdate.t)
  : M (option SparkApplication) :=
  found ← registryLookup (driverStateUpdate.appID update);
  match found with
  | Some app =>
      updated ← updateSparkApplicationWithRetries app app (driverUpdateFunc update);
      match updated with
      | Some u => registryInsert (AppID (Status u)) u
      | None => mret tt
      end;;
      mret updated
  | None => mret None
  end.

Definition processSingleAppStateUpdate (update : appStateUpdate.t) : M unit :=
  found ← registryLookup (appStateUpdate.appID update);
  match found with
  | Some app =>
      updated ← updateSparkApplicationWithRetries app app (appStateUpdateFunc update);
      match updated with
      | Some u =>
          registryInsert (AppID (Status u)) u;;
          if bool_decide (appStateOf u = FailedSubmissionState) then
            emit (RecorderEvent u "SparkApplicationSubmissionFailure"
                    ("SparkApplication " +:+ Name u +:+ " failed submission"))
          else mret tt
      | None => mret tt
      end
  | None => mret tt
  end.

Definition processSingleExecutorStateUpdate (update : executorStateUpdate.t) : M unit :=
  found ← registryLookup (executorStateUpdate.appID update);
  match found with
  | Some app =>
      updated ← updateSparkApplicationWithRetries app app (executorUpdateFunc update);
      match updated with
      | Some u => registryInsert (AppID (Status u)) u
      | None => mret tt
      end
  | None => mret tt
  end.

(** ** [handleRestart] and the three consumers *)

Definition handleRestart (app : SparkApplication) : M unit :=
  if bool_decide (RestartPolicy (Spec app) = Never)
     || bool_decide (RestartPolicy (Spec app) = Undefined)
  then mret tt
  else if bool_decide (appStateOf app = FailedState)
            && bool_decide (RestartPolicy (Spec app) = OnFailure)
          || bool_decide (RestartPolicy (Spec app) = Always)
  then
    emit (RecorderEvent app "SparkApplicationResubmission"
            ("Re-submitting SparkApplication: " +:+ Name app));;
    submitApp app true
  else mret tt.

(** [%v] of the [AppState] struct *)
Definition showAppState (a : ApplicationState) : string :=
  "{" +:+ State a +:+ " " +:+ ErrorMessage a +:+ "}".

(** body of the loop of [processDriverStateUpdates] *)
Definition driverStateStep (update : driverStateUpdate.t) : M unit :=
  updatedApp ← processSingleDriverStateUpdate update;
  match updatedApp with
  | Some u =>
      if isAppTerminated (appStateOf u) then
        emit (RecorderEvent u "SparkApplicationTermination"
                ("SparkApplication " +:+ Name u +:+ " terminated with state: "
                 +:+ showAppState (AppState (Status u))));;
        handleRestart u
      else mret tt
  | None => mret tt
  end.

Fixpoint processDriverStateUpdates (channel : list driverStateUpdate.t) : M unit :=
  match channel with
  | [] => mret tt
  | update :: rest => driverStateStep update;; processDriverStateUpdates rest
  end.

Fixpoint processAppStateUpdates (channel : list appStateUpdate.t) : M unit :=
  match channel with
  | [] => mret tt
  | update :: rest => processSingleAppStateUpdate update;; processAppStateUpdates rest
  end.

Fixpoint processExecutorStateUpdates (channel : list executorStateUpdate.t) : M unit :=
  match channel with
  | [] => mret tt
  | update :: rest => processSingleExecutorStateUpdate update;; processExecutorStateUpdates rest
  end.

End Controller.

Arguments Env W : clear implicits.
Arguments CState W : clear implicits.
Arguments K W A : clear implicits.
Arguments M W A : clear implicits.

Definition isUpdaterEvent (e : Event) : bool :=
  match e with
  | CallUpdateFunc | ClientUpdate _ _ | ClientGet _ _ | ErrorLog _ => true
  | _ => false
  end.

(** The entries of [app.Status.ExecutorState]; a nil map has none. *)
Definition executorsOf (app : SparkApplication) : gmap string ExecutorStateType :=
  default ∅ (ExecutorState (Status app)).


(** A write that succeeds returns the record with the status it was given. *)
Definition statusKept {W} (env : Env W) : Prop :=
  ∀ ns app w r w', clientUpdate env ns app w = (Ok r, w') → Status r = Status app.

(** Every read serves a record that has the appID and the state of [app]:
    nobody else has moved them in the store. *)
Definition servesStateOf {W} (env : Env W) (app : SparkApplication) : Prop :=
  ∀ ns name w r w',
    clientGet env ns name w = (Ok r, w') →
    AppID (Status r) = AppID (Status app) ∧ appStateOf r = appStateOf app.

(** [a] carries the appID of [app] and is in state [st]. *)
Definition sameIdState (app : SparkApplication) (st : ApplicationStateType)
    (a : SparkApplication) : Prop :=
  AppID (Status a) = AppID (Status app) ∧ appStateOf a = st.

(** [m] never drops the registry entry under [k]. *)
Definition keeps {W A} (k : string) (m : M W A) : Prop :=
  ∀ s, is_Some (runningApps s !! k) → is_Some (runningApps (m s).2 !! k).

(** ** The operations that take the mutex, and their interleavings

    [OpDriverState] is [processSingleDriverStateUpdate] alone, [OpRestart] is
    [handleRestart] alone, and [OpDriverLoop] is one turn of
    [processDriverStateUpdates], which runs the two without anything in
    between. *)

Inductive Op :=
| OpAdd (app : SparkApplication)
| OpDelete (app : SparkApplication)
| OpAppState (update : appStateUpdate.t)
| OpDriverState (update : driverStateUpdate.t)
| OpDriverLoop (update : driverStateUpdate.t)
| OpExecutorState (update : executorStateUpdate.t)
| OpRestart (app : SparkApplication).

Definition step {W} (env : Env W) (op : Op) : M W unit :=
  match op with
  | OpAdd app => onAdd env app
  | OpDelete app => onDelete app
  | OpAppState update => processSingleAppStateUpdate env update
  | OpDriverState update => processSingleDriverStateUpdate env update;; mret tt
  | OpDriverLoop update => driverStateStep env update
  | OpExecutorState update => processSingleExecutorStateUpdate env update
  | OpRestart app => handleRestart env app
  end.

Fixpoint run {W} (env : Env W) (ops : list Op) : M W unit :=
  match ops with
  | [] => mret tt
  | op :: rest => step env op;; run env rest
  end.

(** ** Concrete collaborators

    A world that only counts the calls made so far (it doubles as the clock),
    with the answers of the store, of the node directory and of the command
    builder given as functions. *)
Definition scripted
    (update : SparkApplication → nat → result SparkApplication)
    (get : string → nat → result SparkApplication)
    (nodes : string → result Node)
    (build : SparkApplication → list string * option error) : Env nat :=
  {| clientUpdate := λ _ app w, (update app w, S w);
     clientGet := λ _ name w, (get name w, S w);
     nodesGet := λ nodeName w, (nodes nodeName, S w);
     unixNano := λ w, (Z.of_nat w, S w);
     hash32 := λ bytes, Z.of_nat (String.length bytes);
     createSparkUIService := λ app w, (app, w);
     buildSubmissionCommandArgs := build |}.

Definition start (reg : gmap string SparkApplication) : CState nat := mkCState 0 reg [].

Definition pi (policy : RestartPolicyType) (st : ApplicationStateType)
    (executors : option (gmap string ExecutorStateType)) : SparkApplication :=
  mkApp "pi" "default" "uid-1" "7" (mkSpec policy false)
    (mkStatus "pi-100" zeroTime zeroTime (mkDriverInfo 4040%Z "" "") (mkApplicationState st "") executors).

Definition noNodes : string → result Node := λ _, Err NotFound.
Definition buildOk : SparkApplication → list string * option error :=
  λ app, (["--name"; Name app], None).
Definition buildFails : SparkApplication → list string * option error :=
  λ _, ([], Some (OtherError "no main application file")).

(** the store rejects every write as stale and serves the record on every read *)
Definition conflictEnv : Env nat :=
  scripted (λ _ _, Err VersionConflict) (λ _ _, Ok (pi Never NewState None)) noNodes buildOk.

(** the store accepts every write and hands the written record back *)
Definition acceptEnv (build : SparkApplication → list string * option error) : Env nat :=
  scripted (λ app _, Ok app) (λ _ _, Err NotFound) noNodes build.

(** the store fails every write with [e] and every read with [e'] *)
Definition brokenEnv (e e' : error) : Env nat :=
  scripted (λ _ _, Err e) (λ _ _, Err e') noNodes buildOk.

(** a node directory that gives a node another external address from the
    second call on *)
Definition movingEnv : Env nat :=
  {| clientUpdate := λ _ app w, (Ok app, S w);
     clientGet := λ _ _ w, (Err NotFound, S w);
     nodesGet := λ _ w,
       (Ok (mkNode [mkNodeAddress NodeInternalIP "192.168.0.7";
                    mkNodeAddress NodeExternalIP
                      (match w with O => "34.1.2.3" | S _ => "34.9.9.9" end)]),
        S w);
     unixNano := λ w, (Z.of_nat w, S w);
     hash32 := λ bytes, Z.of_nat (String.length bytes);
     createSparkUIService := λ app w, (app, w);
     buildSubmissionCommandArgs := buildOk |}.

Definition runningUpdate : appStateUpdate.t :=
  appStateUpdate.mk "pi-100" (utc 5) zeroTime RunningState "".

Definition pendingUpdate : executorStateUpdate.t :=
  executorStateUpdate.mk "pi-100" "pi-exec-1" "1" ExecutorPendingState.

Definition runningExecutor : executorStateUpdate.t :=
  executorStateUpdate.mk "pi-100" "pi-exec-1" "1" ExecutorRunningState.

Definition succeededUpdate : driverStateUpdate.t :=
  driverStateUpdate.mk "pi-100" "pi-driver" "" PodSucceeded.

(** ** Predicates used to state what the operations keep *)

Definition isRecorderEvent (e : Event) : bool :=
  match e with RecorderEvent _ _ _ => true | _ => false end.

(** Every entry of the registry sits under the appID of its own status. *)
Definition wellKeyed (reg : gmap string SparkApplication) : Prop :=
  ∀ k app, reg !! k = Some app → AppID (Status app) = k.

(** [m] keeps the registry well keyed. *)
Definition keepsWellKeyed {W A} (m : M W A) : Prop :=
  ∀ s, wellKeyed (runningApps s) → wellKeyed (runningApps (m s).2).

(** [m] hands the runner at most [n] submissions. *)
Definition submitsAtMost {W A} (n : nat) (m : M W A) : Prop :=
  ∀ s, (count isRunnerSubmit (trace (m s).2) ≤ count isRunnerSubmit (trace s) + n)%nat.

(** The submission-outcome and worker-lifecycle mutations applied one after
    the other, in the order of the list. *)
Definition applyAppStateUpdates {W} (w : W) (updates : list appStateUpdate.t)
    (app : SparkApplication) : SparkApplication :=
  foldl (λ a update, (appStateUpdateFunc update a w).1.1) app updates.

Definition applyExecutorUpdates {W} (w : W) (updates : list executorStateUpdate.t)
    (app : SparkApplication) : SparkApplication :=
  foldl (λ a update, (executorUpdateFunc update a w).1.1) app updates.

(** a record whose driver has been seen to succeed *)
Definition completedPi : SparkApplication :=
  mkApp "pi" "default" "uid-1" "7" (mkSpec Always false)
    (mkStatus "pi-100" zeroTime zeroTime (mkDriverInfo 4040%Z "" "pi-driver")
       (mkApplicationState CompletedState "") None).

(** the store after a restart: it holds the record of the new run, so that the
    first write, made from a copy of the previous run, is turned down as
    stale, the read serves the new record, and the second write is taken *)
Definition newRun : SparkApplication :=
  mkApp "pi" "default" "uid-1" "9" (mkSpec Always false)
    (mkStatus "pi-15" zeroTime zeroTime (mkDriverInfo 0%Z "" "") (mkApplicationState NewState "") None).

Definition restartedEnv : Env nat :=
  scripted (λ app w, match w with O => Err VersionConflict | S _ => Ok app end)
    (λ _ _, Ok newRun) noNodes buildOk.

(** ** The mutations read field by field *)

(** [appState] after a submission outcome *)
Definition outcomeAppState (update : appStateUpdate.t) (old : ApplicationState)
  : ApplicationState :=
  if negb (isAppTerminated (State old))
     || bool_decide (appStateUpdate.state update = FailedSubmissionState)
  then mkApplicationState (appStateUpdate.state update) (appStateUpdate.errorMessage update)
  else old.

(** a timestamp after a submission outcome *)
Definition outcomeTime (incoming old : Time) : Time :=
  if negb (IsZero incoming) then incoming else old.

(** [executorState] after a worker event *)
Definition workerExecutors (update : executorStateUpdate.t)
    (old : option (gmap string ExecutorStateType)) : option (gmap string ExecutorStateType) :=
  let m := default ∅ old in
  if bool_decide (executorStateUpdate.state update ≠ ExecutorPendingState)
  then Some (<[executorStateUpdate.podName update := executorStateUpdate.state update]> m)
  else Some m.

(** [driverInfo] after a driver event *)
Definition driverDriverInfo {W} (env : Env W) (update : driverStateUpdate.t) (w : W)
    (old : DriverInfoType) : DriverInfoType :=
  mkDriverInfo (WebUIPort old)
    (if bool_decide (driverStateUpdate.nodeName update ≠ "") then
       let nodeIP := (getNodeExternalIP env (driverStateUpdate.nodeName update) w).1.1 in
       if bool_decide (nodeIP ≠ "") then nodeIP +:+ ":" +:+ pretty (WebUIPort old)
       else WebUIAddress old
     else WebUIAddress old)
    (driverStateUpdate.podName update).

(** [appState] after a driver event *)
Definition driverAppState (update : driverStateUpdate.t) (old : ApplicationState)
  : ApplicationState :=
  let appState := driverPodPhaseToApplicationState (driverStateUpdate.podPhase update) in
  if isAppTerminated appState then mkApplicationState appState (ErrorMessage old) else old.

(** Normalise nested appends on both sides of a trace equation. *)
Ltac list_assoc := repeat first [rewrite <- app_assoc | progress cbn [app]].

(** * Properties *)

(** ** Counting events *)

Lemma count_app p (t1 t2 : list Event) : count p (t1 ++ t2) = count p t1 + count p t2.
Proof. unfold count. by rewrite filter_app, length_app. Qed.

Lemma count_cons p e (t : list Event) :
  count p (e :: t) = (if p e then 1 else 0) + count p t.
Proof.
  unfold count. destruct (p e) eqn:He.
  - by rewrite filter_cons_True.
  - rewrite filter_cons_False; [done | by rewrite He].
Qed.

Lemma count_logs p (logs : list LogEntry) :
  (∀ l, p (ErrorLog l) = false) → count p (map ErrorLog logs) = 0.
Proof.
  intros Hp. induction logs as [|l logs IH]; [done |].
  cbn [map]. by rewrite count_cons, Hp, IH.
Qed.

(** ** One turn of the loop of the status updater *)

Section Updater.
Context {W : Type} (env : Env W).
Implicit Types (s : CState W) (f : SparkApplication → K W SparkApplication).

Lemma updateLoop_unchanged n original toUpdate f s m w1 logs :
  f toUpdate (world s) = (m, w1, logs) →
  Status original = Status m →
  updateLoop env (S n) original toUpdate f s = (None, mutated s w1 logs).
Proof.
  intros Hf Heq. cbn [updateLoop].
  unfold mbind, mret, M_bind, M_ret, emit, liftK; cbn. rewrite Hf; cbn.
  rewrite decide_True by done. unfold mutated. by list_assoc.
Qed.

Lemma updateLoop_written n original toUpdate f s m w1 logs r w2 :
  f toUpdate (world s) = (m, w1, logs) →
  Status original ≠ Status m →
  clientUpdate env (Namespace m) m w1 = (Ok r, w2) →
  updateLoop env (S n) original toUpdate f s = (Some r, written s m w2 logs).
Proof.
  intros Hf Hne Hu. cbn [updateLoop].
  unfold mbind, mret, M_bind, M_ret, emit, liftK, liftW; cbn. rewrite Hf; cbn.
  rewrite decide_False by done. cbn. rewrite Hu; cbn.
  unfold written. by list_assoc.
Qed.

Lemma updateLoop_refetched n original toUpdate f s m w1 logs e w2 latest w3 :
  f toUpdate (world s) = (m, w1, logs) →
  Status original ≠ Status m →
  clientUpdate env (Namespace m) m w1 = (Err e, w2) →
  clientGet env (Namespace m) (Name m) w2 = (Ok latest, w3) →
  updateLoop env (S n) original toUpdate f s
  = updateLoop env n original latest f (fetched s m w3 logs).
Proof.
  intros Hf Hne Hu Hg. cbn [updateLoop].
  unfold mbind, mret, M_bind, M_ret, emit, liftK, liftW; cbn. rewrite Hf; cbn.
  rewrite decide_False by done. cbn. rewrite Hu; cbn. rewrite Hg; cbn.
  unfold fetched. by list_assoc.
Qed.

Lemma updateLoop_fetch_failed n original toUpdate f s m w1 logs e w2 e' w3 :
  f toUpdate (world s) = (m, w1, logs) →
  Status original ≠ Status m →
  clientUpdate env (Namespace m) m w1 = (Err e, w2) →
  clientGet env (Namespace m) (Name m) w2 = (Err e', w3) →
  updateLoop env (S n) original toUpdate f s
  = (None,
     mkCState w3 (runningApps s)
       (trace (fetched s m w3 logs)
          ++ [ErrorLog (FailedToGetSparkApplication (Name m) e')])).
Proof.
  intros Hf Hne Hu Hg. cbn [updateLoop].
  unfold mbind, mret, M_bind, M_ret, emit, liftK, liftW; cbn. rewrite Hf; cbn.
  rewrite decide_False by done. cbn. rewrite Hu; cbn. rewrite Hg; cbn.
  unfold fetched; cbn. by list_assoc.
Qed.

End Updater.

(** ** Frame of the status updater: it leaves the registry alone and only adds
    its own calls and error logs to the trace *)

Section UpdaterFrame.
Context {W : Type} (env : Env W).

Lemma Forall_logs (logs : list LogEntry) :
  Forall (λ e, isUpdaterEvent e = true) (map ErrorLog logs).
Proof. induction logs; cbn; by constructor. Qed.

Lemma updateLoop_frame n original f : ∀ toUpdate (s : CState W),
  runningApps (updateLoop env n original toUpdate f s).2 = runningApps s
  ∧ ∃ t, trace (updateLoop env n original toUpdate f s).2 = trace s ++ t
         ∧ Forall (λ e, isUpdaterEvent e = true) t.
Proof.
  induction n as [|n IH]; intros toUpdate s.
  - cbn. split; [done |]. exists []. by rewrite app_nil_r.
  - destruct (f toUpdate (world s)) as [[m w1] logs] eqn:Hf.
    destruct (decide (Status original = Status m)) as [Heq | Hne].
    { rewrite (updateLoop_unchanged env n _ _ _ _ _ _ _ Hf Heq). cbn.
      split; [done |]. eexists; split; [done |].
      constructor; [done | apply Forall_logs]. }
    destruct (clientUpdate env (Namespace m) m w1) as [[r | e] w2] eqn:Hu.
    { rewrite (updateLoop_written env n _ _ _ _ _ _ _ _ _ Hf Hne Hu). cbn.
      split; [done |]. eexists; split; [done |].
      constructor; [done |]. apply Forall_app; split; [apply Forall_logs |].
      by repeat constructor. }
    destruct (clientGet env (Namespace m) (Name m) w2) as [[latest | e'] w3] eqn:Hg.
    + rewrite (updateLoop_refetched env n _ _ _ _ _ _ _ _ _ _ _ Hf Hne Hu Hg).
      destruct (IH latest (fetched s m w3 logs)) as [Hreg (t & Ht & Hall)].
      rewrite Hreg, Ht. cbn. split; [done |].
      eexists; split; [by list_assoc |].
      constructor; [done |]. apply Forall_app; split; [apply Forall_logs |].
      by repeat constructor.
    + rewrite (updateLoop_fetch_failed env n _ _ _ _ _ _ _ _ _ _ _ Hf Hne Hu Hg). cbn.
      split; [done |]. eexists; split; [by list_assoc |].
      constructor; [done |]. apply Forall_app; split; [apply Forall_logs |].
      by repeat constructor.
Qed.

Lemma updateLoop_registry n original toUpdate f (s : CState W) :
  runningApps (updateLoop env n original toUpdate f s).2 = runningApps s.
Proof. apply updateLoop_frame. Qed.

(** ** A store that turns every write down *)

Lemma updateLoop_all_writes_fail n original f :
  (∀ ns app w, (clientUpdate env ns app w).1 = Err VersionConflict) →
  (∀ ns name w, ∃ latest, (clientGet env ns name w).1 = Ok latest) →
  (∀ ns name w latest, (clientGet env ns name w).1 = Ok latest →
     ∀ w', Status original ≠ Status (f latest w').1.1) →
  ∀ toUpdate (s : CState W),
    (∀ w', Status original ≠ Status (f toUpdate w').1.1) →
    (updateLoop env n original toUpdate f s).1 = None
    ∧ ∃ t, trace (updateLoop env n original toUpdate f s).2 = trace s ++ t
           ∧ count isCallUpdateFunc t = n
           ∧ count isClientUpdate t = n
           ∧ count isClientGet t = n.
Proof.
  intros Hupd Hget Hdiff. induction n as [|n IH]; intros toUpdate s Hfirst.
  - cbn. split; [done |]. exists []. by rewrite app_nil_r.
  - destruct (f toUpdate (world s)) as [[m w1] logs] eqn:Hf.
    assert (Hne : Status original ≠ Status m).
    { specialize (Hfirst (world s)). by rewrite Hf in Hfirst. }
    destruct (clientUpdate env (Namespace m) m w1) as [r w2] eqn:Hu.
    pose proof (Hupd (Namespace m) m w1) as Hr. rewrite Hu in Hr. cbn in Hr. subst r.
    destruct (clientGet env (Namespace m) (Name m) w2) as [r' w3] eqn:Hg.
    destruct (Hget (Namespace m) (Name m) w2) as [latest Hl].
    pose proof (Hdiff _ _ _ _ Hl) as Hlatest.
    rewrite Hg in Hl. cbn in Hl. subst r'.
    rewrite (updateLoop_refetched env n _ _ _ _ _ _ _ _ _ _ _ Hf Hne Hu Hg).
    destruct (IH latest (fetched s m w3 logs) Hlatest)
      as [Hnone (t & Ht & Hc1 & Hc2 & Hc3)].
    split; [done |]. rewrite Ht. cbn.
    eexists; split; [by list_assoc |].
    rewrite !count_cons, !count_app, !count_cons, !count_logs by done.
    cbn. lia.
Qed.

End UpdaterFrame.

(** ** What the status updater returns comes from the store *)

Section UpdaterResult.
Context {W : Type} (env : Env W).

(** [P] holds of the records the loop mutates, [Pm] of the mutated ones,
    [Q] of the record returned *)
Lemma updateLoop_result (P Pm Q : SparkApplication → Prop) n original f :
  (∀ app w, P app → Pm (f app w).1.1) →
  (∀ ns app w r w', Pm app → clientUpdate env ns app w = (Ok r, w') → Q r) →
  (∀ ns app w r w', Pm app → clientGet env ns (Name app) w = (Ok r, w') → P r) →
  ∀ toUpdate (s : CState W) r,
    P toUpdate → (updateLoop env n original toUpdate f s).1 = Some r → Q r.
Proof.
  intros Hmut Hwrite Hread. induction n as [|n IH]; intros toUpdate s r HP Hres.
  - discriminate Hres.
  - destruct (f toUpdate (world s)) as [[m w1] logs] eqn:Hf.
    assert (HPm : Pm m).
    { specialize (Hmut toUpdate (world s) HP). by rewrite Hf in Hmut. }
    destruct (decide (Status original = Status m)) as [Heq | Hne].
    { by rewrite (updateLoop_unchanged env n _ _ _ _ _ _ _ Hf Heq) in Hres. }
    destruct (clientUpdate env (Namespace m) m w1) as [[r' | e] w2] eqn:Hu.
    { rewrite (updateLoop_written env n _ _ _ _ _ _ _ _ _ Hf Hne Hu) in Hres.
      injection Hres as <-. by eapply Hwrite. }
    destruct (clientGet env (Namespace m) (Name m) w2) as [[latest | e'] w3] eqn:Hg.
    + rewrite (updateLoop_refetched env n _ _ _ _ _ _ _ _ _ _ _ Hf Hne Hu Hg) in Hres.
      eapply IH; [| exact Hres]. by eapply Hread.
    + by rewrite (updateLoop_fetch_failed env n _ _ _ _ _ _ _ _ _ _ _ Hf Hne Hu Hg)
        in Hres.
Qed.



End UpdaterResult.

(** ** The mutation rules of the three reducers *)

Lemma isAppTerminated_spec st :
  isAppTerminated st = true ↔ st = CompletedState ∨ st = FailedState.
Proof.
  unfold isAppTerminated. rewrite orb_true_iff, !bool_decide_eq_true. tauto.
Qed.

Section Reducers.
Context {W : Type} (env : Env W).

Lemma executorUpdateFunc_appState update toUpdate (w : W) :
  AppState (Status (executorUpdateFunc update toUpdate w).1.1) = AppState (Status toUpdate).
Proof.
  unfold executorUpdateFunc. destruct toUpdate as [? ? ? ? ? [? ? ? ? ? [m|]]]; cbn;
    by case_bool_decide.
Qed.

Lemma appStateUpdateFunc_state update toUpdate (w : W) :
  appStateOf (appStateUpdateFunc update toUpdate w).1.1
  = if negb (isAppTerminated (appStateOf toUpdate))
       || bool_decide (appStateUpdate.state update = FailedSubmissionState)
    then appStateUpdate.state update
    else appStateOf toUpdate.
Proof.
  unfold appStateUpdateFunc. destruct toUpdate as [? ? ? ? ? [? ? ? ? [st msg] ?]]; cbn.
  by repeat case_match.
Qed.

Lemma driverUpdateFunc_state update toUpdate (w : W) :
  appStateOf (driverUpdateFunc env update toUpdate w).1.1
  = if isAppTerminated (driverPodPhaseToApplicationState (driverStateUpdate.podPhase update))
    then driverPodPhaseToApplicationState (driverStateUpdate.podPhase update)
    else appStateOf toUpdate.
Proof.
  unfold driverUpdateFunc, getNodeExternalIP, mbind, mret, K_bind, K_ret.
  destruct toUpdate as [? ? ? ? ? [? ? ? [? ? ?] [st msg] ?]]; cbn.
  by repeat case_match; simplify_eq; cbn.
Qed.

End Reducers.

(** ** The reducers against a store that keeps what it is given *)

Section FaithfulStore.
Context {W : Type} (env : Env W) (app : SparkApplication).
Hypothesis Hwrite : statusKept env.
Hypothesis Hread : servesStateOf env app.

Lemma written_sameIdState st ns a w r w' :
  sameIdState app st a → clientUpdate env ns a w = (Ok r, w') → sameIdState app st r.
Proof.
  intros [Hid Hst] Hu. apply Hwrite in Hu. unfold sameIdState, appStateOf.
  by rewrite Hu.
Qed.

Lemma read_sameIdState ns name w r w' :
  clientGet env ns name w = (Ok r, w') → sameIdState app (appStateOf app) r.
Proof. intros Hg. by apply Hread in Hg. Qed.

Lemma executorUpdateFunc_sameIdState st update a (w : W) :
  sameIdState app st a → sameIdState app st (executorUpdateFunc update a w).1.1.
Proof.
  intros [Hid Hst]. split.
  - unfold executorUpdateFunc.
    destruct a as [? ? ? ? ? [? ? ? ? ? [m |]]]; cbn in *; by case_bool_decide.
  - unfold appStateOf. by rewrite executorUpdateFunc_appState.
Qed.

Lemma appStateUpdateFunc_appID update a (w : W) :
  AppID (Status (appStateUpdateFunc update a w).1.1) = AppID (Status a).
Proof.
  unfold appStateUpdateFunc. destruct a as [? ? ? ? ? [? ? ? ? [st msg] ?]]; cbn.
  by repeat case_match.
Qed.

(** after a worker-lifecycle event the registry holds, under the appID of
    [app], a record in the state [app] was in *)
Lemma processSingleExecutorStateUpdate_state update (s : CState W) :
  runningApps s !! AppID (Status app) = Some app →
  executorStateUpdate.appID update = AppID (Status app) →
  ∃ app', runningApps (processSingleExecutorStateUpdate env update s).2
            !! AppID (Status app) = Some app'
          ∧ appStateOf app' = appStateOf app.
Proof.
  intros Hreg Hid.
  unfold processSingleExecutorStateUpdate, registryLookup, mbind, mret, M_bind, M_ret.
  rewrite Hid, Hreg.
  pose proof (updateLoop_registry env maximumUpdateRetries app app
                (executorUpdateFunc update) s) as Hframe.
  pose proof (updateLoop_result env (sameIdState app (appStateOf app))
                (sameIdState app (appStateOf app)) (sameIdState app (appStateOf app))
                maximumUpdateRetries app (executorUpdateFunc update)
                (λ a w, executorUpdateFunc_sameIdState _ update a w)
                (λ ns a w r w', written_sameIdState _ ns a w r w')
                (λ ns a w r w' _, read_sameIdState ns (Name a) w r w')
                app s) as Hres.
  unfold updateSparkApplicationWithRetries.
  destruct (updateLoop env maximumUpdateRetries app app (executorUpdateFunc update) s)
    as [[u |] s1]; cbn [fst snd] in Hframe, Hres |- *.
  - destruct (Hres u) as [Hu1 Hu2]; [done | done |].
    exists u. unfold registryInsert. cbn [snd runningApps].
    by rewrite Hu1, lookup_insert_eq.
  - exists app. by rewrite Hframe.
Qed.

(** after a submission-outcome event for a terminated [app] the registry
    holds, under the appID of [app], either the record the updater returned,
    which is in state FailedSubmission if that is the incoming state and in
    the state of [app] otherwise, or, when the updater returned nil, [app]
    itself *)
Lemma processSingleAppStateUpdate_state update (s : CState W) :
  isAppTerminated (appStateOf app) = true →
  runningApps s !! AppID (Status app) = Some app →
  appStateUpdate.appID update = AppID (Status app) →
  match (updateSparkApplicationWithRetries env app app (appStateUpdateFunc update) s).1 with
  | Some u =>
      runningApps (processSingleAppStateUpdate env update s).2 !! AppID (Status app) = Some u
      ∧ appStateOf u
        = if bool_decide (appStateUpdate.state update = FailedSubmissionState)
          then FailedSubmissionState else appStateOf app
  | None =>
      runningApps (processSingleAppStateUpdate env update s).2 !! AppID (Status app)
      = Some app
  end.
Proof.
  intros Hterm Hreg Hid.
  set (st' := if bool_decide (appStateUpdate.state update = FailedSubmissionState)
              then FailedSubmissionState else appStateOf app).
  unfold processSingleAppStateUpdate, registryLookup, mbind, mret, M_bind, M_ret.
  rewrite Hid, Hreg.
  pose proof (updateLoop_registry env maximumUpdateRetries app app
                (appStateUpdateFunc update) s) as Hframe.
  assert (Hmut : ∀ a (w : W), sameIdState app (appStateOf app) a →
                   sameIdState app st' (appStateUpdateFunc update a w).1.1).
  { intros a w [Ha1 Ha2]. split; [by rewrite appStateUpdateFunc_appID |].
    rewrite appStateUpdateFunc_state, Ha2, Hterm. unfold st'. cbn.
    by case_bool_decide. }
  pose proof (updateLoop_result env (sameIdState app (appStateOf app))
                (sameIdState app st') (sameIdState app st')
                maximumUpdateRetries app (appStateUpdateFunc update) Hmut
                (λ ns a w r w', written_sameIdState _ ns a w r w')
                (λ ns a w r w' _, read_sameIdState ns (Name a) w r w')
                app s) as Hres.
  unfold updateSparkApplicationWithRetries.
  destruct (updateLoop env maximumUpdateRetries app app (appStateUpdateFunc update) s)
    as [[u |] s1]; cbn [fst snd] in Hframe, Hres |- *.
  - destruct (Hres u) as [Hu1 Hu2]; [done | done |].
    split; [| done].
    unfold registryInsert, emit. case_bool_decide; cbn [snd runningApps];
      by rewrite Hu1, lookup_insert_eq.
  - by rewrite Hframe.
Qed.

End FaithfulStore.

Section Idempotence.
Context {W : Type} (env : Env W).

Lemma appStateUpdateFunc_twice update toUpdate (w w' : W) :
  (appStateUpdateFunc update (appStateUpdateFunc update toUpdate w).1.1 w').1.1
  = (appStateUpdateFunc update toUpdate w).1.1.
Proof.
  unfold appStateUpdateFunc, appStateOf, mret, K_ret.
  destruct toUpdate as [? ? ? ? ? [? ? ? ? [st msg] ?]]; cbn.
  destruct (isAppTerminated st) eqn:Hst; cbn;
    destruct (bool_decide (appStateUpdate.state update = FailedSubmissionState)) eqn:Hfs;
    cbn; rewrite ?Hst, ?Hfs; cbn;
    destruct (IsZero (appStateUpdate.submissionTime update));
    destruct (IsZero (appStateUpdate.completionTime update)); cbn;
    rewrite ?Hst, ?Hfs, ?orb_true_r; cbn; try reflexivity;
    destruct (isAppTerminated (appStateUpdate.state update)); reflexivity.
Qed.

Lemma executorUpdateFunc_twice update toUpdate (w w' : W) :
  (executorUpdateFunc update (executorUpdateFunc update toUpdate w).1.1 w').1.1
  = (executorUpdateFunc update toUpdate w).1.1.
Proof.
  unfold executorUpdateFunc, mret, K_ret.
  destruct toUpdate as [? ? ? ? ? [? ? ? ? ? [m|]]]; cbn;
    case_bool_decide; cbn; by rewrite ?insert_insert_eq.
Qed.

Lemma driverUpdateFunc_fields update a (w : W) :
  (driverUpdateFunc env update a w).1.1
  = withStatus
      (mkStatus (AppID (Status a)) (SubmissionTime (Status a)) (CompletionTime (Status a))
         (driverDriverInfo env update w (DriverInfo (Status a)))
         (driverAppState update (AppState (Status a)))
         (ExecutorState (Status a))) a.
Proof.
  unfold driverUpdateFunc, driverDriverInfo, driverAppState, getNodeExternalIP,
    mbind, mret, K_bind, K_ret.
  destruct a as [? ? ? ? ? [? ? ? [? ? ?] [st msg] ?]].
  destruct (bool_decide (driverStateUpdate.nodeName update ≠ ""));
    [destruct (nodesGet env (driverStateUpdate.nodeName update) w) as [[node | e] w1];
     cbn [fst snd];
     [destruct (bool_decide (firstExternalIP (Addresses node) ≠ "")) |] |];
    destruct (isAppTerminated _); reflexivity.
Qed.

(** the closure of the driver reducer reaches the world through its node
    lookup alone *)
Lemma driverUpdateFunc_world update toUpdate (w : W) :
  (driverUpdateFunc env update toUpdate w).1.2
  = if bool_decide (driverStateUpdate.nodeName update ≠ "")
    then (nodesGet env (driverStateUpdate.nodeName update) w).2
    else w.
Proof.
  unfold driverUpdateFunc, getNodeExternalIP, mbind, mret, K_bind, K_ret.
  destruct (bool_decide (driverStateUpdate.nodeName update ≠ ""));
    [destruct (nodesGet env (driverStateUpdate.nodeName update) w) as [[node | e] w1];
     cbn [fst snd];
     [destruct (bool_decide (firstExternalIP (Addresses node) ≠ "")) |] |];
    destruct (isAppTerminated _); reflexivity.
Qed.

Lemma driverAppState_twice update (old : ApplicationState) :
  driverAppState update (driverAppState update old) = driverAppState update old.
Proof.
  unfold driverAppState.
  destruct (isAppTerminated (driverPodPhaseToApplicationState
                               (driverStateUpdate.podPhase update))) eqn:Hd;
    cbn [ErrorMessage]; by rewrite ?Hd.
Qed.

(** the second run may find the directory changed: [w'] is the world it
    starts in *)
Lemma driverDriverInfo_twice update (w w' : W) (old : DriverInfoType) :
  (getNodeExternalIP env (driverStateUpdate.nodeName update) w').1.1
  = (getNodeExternalIP env (driverStateUpdate.nodeName update) w).1.1
  ∨ (getNodeExternalIP env (driverStateUpdate.nodeName update) w').1.1 = "" →
  driverDriverInfo env update w' (driverDriverInfo env update w old)
  = driverDriverInfo env update w old.
Proof.
  intros Hsame. unfold driverDriverInfo. cbn [WebUIPort WebUIAddress].
  destruct (bool_decide (driverStateUpdate.nodeName update ≠ "")); [| reflexivity].
  cbv zeta. destruct Hsame as [-> | ->].
  - by destruct (bool_decide
                   ((getNodeExternalIP env (driverStateUpdate.nodeName update) w).1.1 ≠ "")).
  - by rewrite (bool_decide_eq_false_2 ("" ≠ "")) by (intros Hne; by apply Hne).
Qed.

Lemma driverUpdateFunc_twice update toUpdate (w w' : W) :
  (getNodeExternalIP env (driverStateUpdate.nodeName update) w').1.1
  = (getNodeExternalIP env (driverStateUpdate.nodeName update) w).1.1
  ∨ (getNodeExternalIP env (driverStateUpdate.nodeName update) w').1.1 = "" →
  (driverUpdateFunc env update (driverUpdateFunc env update toUpdate w).1.1 w').1.1
  = (driverUpdateFunc env update toUpdate w).1.1.
Proof.
  intros Hsame. rewrite !driverUpdateFunc_fields.
  unfold withStatus. cbn [Status Name Namespace UID ResourceVersion Spec AppID SubmissionTime
    CompletionTime DriverInfo AppState ExecutorState].
  by rewrite driverAppState_twice, driverDriverInfo_twice.
Qed.

End Idempotence.

(** ** The dispatcher *)

Section Dispatcher.
Context {W : Type} (env : Env W).
Implicit Types (s : CState W).

Lemma submitApp_abandoned app resubmission s s1 :
  updateSparkApplicationWithRetries env app app (submitUpdateFunc env resubmission) s
  = (None, s1) →
  submitApp env app resubmission s = (tt, s1).
Proof.
  intros Hupd. unfold submitApp, mbind, mret, M_bind, M_ret. by rewrite Hupd.
Qed.

Lemma submitApp_persisted app resubmission s updated s1 :
  updateSparkApplicationWithRetries env app app (submitUpdateFunc env resubmission) s
  = (Some updated, s1) →
  submitApp env app resubmission s
  = (tt, mkCState (world s1) (<[AppID (Status updated) := updated]> (runningApps s))
           (trace s1 ++ submissionEvents env updated)).
Proof.
  intros Hupd.
  pose proof (updateLoop_registry env maximumUpdateRetries app app
                (submitUpdateFunc env resubmission) s) as Hreg.
  fold (updateSparkApplicationWithRetries env app app (submitUpdateFunc env resubmission) s)
    in Hreg.
  unfold submitApp, submissionEvents, mbind, mret, M_bind, M_ret.
  rewrite Hupd in *. cbn in Hreg.
  unfold registryInsert, emit. rewrite Hreg.
  destruct (buildSubmissionCommandArgs env updated) as [args [err |]];
    destruct (SubmissionByUser (Spec updated)); cbn; by rewrite ?app_nil_r; list_assoc.
Qed.

Lemma count_updater_events p (t : list Event) :
  (∀ e, isUpdaterEvent e = true → p e = false) →
  Forall (λ e, isUpdaterEvent e = true) t → count p t = 0.
Proof.
  intros Hp Hall. induction Hall as [|e t He _ IH]; [done |].
  by rewrite count_cons, (Hp e He), IH.
Qed.

Lemma submissionEvents_silent updated :
  count isResubmission (submissionEvents env updated) = 0.
Proof.
  unfold submissionEvents.
  destruct (buildSubmissionCommandArgs env updated) as [args [err |]];
    destruct (SubmissionByUser (Spec updated)); cbn [negb app];
    by rewrite ?count_cons.
Qed.

Lemma submitApp_recorder_silent app resubmission s :
  count isResubmission (trace (submitApp env app resubmission s).2)
  = count isResubmission (trace s).
Proof.
  destruct (updateSparkApplicationWithRetries env app app
              (submitUpdateFunc env resubmission) s) as [[updated |] s1] eqn:Hupd.
  - rewrite (submitApp_persisted _ _ _ _ _ Hupd). cbn [snd trace].
    destruct (updateLoop_frame env maximumUpdateRetries app
                (submitUpdateFunc env resubmission) app s) as [_ (t & Ht & Hall)].
    fold (updateSparkApplicationWithRetries env app app
            (submitUpdateFunc env resubmission) s) in Ht.
    rewrite Hupd in Ht. cbn in Ht. rewrite Ht, !count_app.
    rewrite (count_updater_events isResubmission t); [| by intros [] | done].
    rewrite submissionEvents_silent. lia.
  - rewrite (submitApp_abandoned _ _ _ _ Hupd). cbn [snd].
    destruct (updateLoop_frame env maximumUpdateRetries app
                (submitUpdateFunc env resubmission) app s) as [_ (t & Ht & Hall)].
    fold (updateSparkApplicationWithRetries env app app
            (submitUpdateFunc env resubmission) s) in Ht.
    rewrite Hupd in Ht. cbn in Ht. rewrite Ht, count_app.
    rewrite (count_updater_events isResubmission t); [lia | by intros [] | done].
Qed.

Lemma handleRestart_resubmits app s :
  RestartPolicy (Spec app) = Always
  ∨ (RestartPolicy (Spec app) = OnFailure ∧ appStateOf app = FailedState) →
  handleRestart env app s
  = submitApp env app true
      (mkCState (world s) (runningApps s)
         (trace s ++ [RecorderEvent app "SparkApplicationResubmission"
                        ("Re-submitting SparkApplication: " +:+ Name app)])).
Proof.
  intros Hel. unfold handleRestart.
  destruct Hel as [Hel | [Hel Hst]]; rewrite Hel, ?Hst;
    repeat (case_bool_decide; cbn [orb andb]); done.
Qed.

Lemma handleRestart_skips app s :
  ¬ (RestartPolicy (Spec app) = Always
     ∨ (RestartPolicy (Spec app) = OnFailure ∧ appStateOf app = FailedState)) →
  handleRestart env app s = (tt, s).
Proof.
  intros Hel. unfold handleRestart.
  repeat (case_bool_decide; cbn); try reflexivity; exfalso; apply Hel; tauto.
Qed.

End Dispatcher.

(** ** The worker-lifecycle reducer on a pending worker *)

Section PendingWorker.
Context {W : Type} (env : Env W).

Lemma executorUpdateFunc_pending update toUpdate (w : W) :
  executorStateUpdate.state update = ExecutorPendingState →
  executorUpdateFunc update toUpdate w
  = (match ExecutorState (Status toUpdate) with
     | None => setExecutorState (Some ∅) toUpdate
     | Some _ => toUpdate
     end, w, []).
Proof.
  intros Hpending. unfold executorUpdateFunc. rewrite Hpending.
  case_bool_decide; [done | reflexivity].
Qed.

End PendingWorker.

(** ** Registry entries are only ever dropped by [onDelete] *)

Section Keeps.
Context {W : Type} (env : Env W) (k : string).

Lemma keeps_ret {A} (a : A) : keeps (W:=W) k (mret a).
Proof. by intros s. Qed.

Lemma keeps_bind {A B} (m : M W A) (f : A → M W B) :
  keeps k m → (∀ a, keeps k (f a)) → keeps k (m ≫= f).
Proof.
  intros Hm Hf s Hs. unfold mbind, M_bind.
  specialize (Hm s Hs). destruct (m s) as [a s1]. by apply Hf.
Qed.

Lemma keeps_emit e : keeps (W:=W) k (emit e).
Proof. by intros s. Qed.

Lemma keeps_registryLookup appID : keeps (W:=W) k (registryLookup appID).
Proof. by intros s. Qed.

Lemma keeps_registryInsert appID app : keeps (W:=W) k (registryInsert appID app).
Proof.
  intros s Hs. cbn. rewrite lookup_insert. by case_decide.
Qed.

Lemma keeps_registryDelete appID : appID ≠ k → keeps (W:=W) k (registryDelete appID).
Proof. intros Hne s Hs. cbn. by rewrite lookup_delete_ne. Qed.

Lemma keeps_updater original toUpdate f :
  keeps k (updateSparkApplicationWithRetries env original toUpdate f).
Proof.
  intros s Hs. unfold updateSparkApplicationWithRetries.
  by rewrite updateLoop_registry.
Qed.

Lemma keeps_submitApp app resubmission : keeps k (submitApp env app resubmission).
Proof.
  unfold submitApp. apply keeps_bind; [apply keeps_updater |].
  intros [updated |]; [| apply keeps_ret].
  apply keeps_bind; [apply keeps_registryInsert | intros _].
  destruct (buildSubmissionCommandArgs env updated) as [args [err |]];
    (apply keeps_bind; [first [apply keeps_emit | apply keeps_ret] | intros _]);
    destruct (negb _); first [apply keeps_emit | apply keeps_ret].
Qed.

Lemma keeps_handleRestart app : keeps k (handleRestart env app).
Proof.
  unfold handleRestart. repeat case_match; try apply keeps_ret.
  apply keeps_bind; [apply keeps_emit | intros _; apply keeps_submitApp].
Qed.

Lemma keeps_processSingleDriverStateUpdate update :
  keeps k (processSingleDriverStateUpdate env update).
Proof.
  unfold processSingleDriverStateUpdate.
  apply keeps_bind; [apply keeps_registryLookup |].
  intros [app |]; [| apply keeps_ret].
  apply keeps_bind; [apply keeps_updater |].
  intros [u |]; (apply keeps_bind; [| intros _; apply keeps_ret]).
  - apply keeps_registryInsert.
  - apply keeps_ret.
Qed.

Lemma keeps_step op :
  (∀ deleted, op = OpDelete deleted → AppID (Status deleted) ≠ k) →
  keeps k (step env op).
Proof.
  intros Hdel. destruct op as [app | app | update | update | update | update | app]; cbn.
  - unfold onAdd. apply keeps_bind; [apply keeps_emit | intros _; apply keeps_submitApp].
  - unfold onDelete. apply keeps_bind; [apply keeps_emit | intros _].
    apply keeps_registryDelete. by apply Hdel.
  - unfold processSingleAppStateUpdate.
    apply keeps_bind; [apply keeps_registryLookup |].
    intros [app |]; [| apply keeps_ret].
    apply keeps_bind; [apply keeps_updater |].
    intros [u |]; [| apply keeps_ret].
    apply keeps_bind; [apply keeps_registryInsert | intros _].
    case_bool_decide; [apply keeps_emit | apply keeps_ret].
  - apply keeps_bind; [apply keeps_processSingleDriverStateUpdate |].
    intros _; apply keeps_ret.
  - unfold driverStateStep.
    apply keeps_bind; [apply keeps_processSingleDriverStateUpdate |].
    intros [u |]; [| apply keeps_ret].
    destruct (isAppTerminated _); [| apply keeps_ret].
    apply keeps_bind; [apply keeps_emit | intros _; apply keeps_handleRestart].
  - unfold processSingleExecutorStateUpdate.
    apply keeps_bind; [apply keeps_registryLookup |].
    intros [app |]; [| apply keeps_ret].
    apply keeps_bind; [apply keeps_updater |].
    intros [u |]; [apply keeps_registryInsert | apply keeps_ret].
  - apply keeps_handleRestart.
Qed.

Lemma keeps_run ops :
  (∀ deleted, OpDelete deleted ∈ ops → AppID (Status deleted) ≠ k) →
  keeps k (run env ops).
Proof.
  induction ops as [|op ops IH]; intros Hdel; cbn; [apply keeps_ret |].
  apply keeps_bind.
  - apply keeps_step. intros deleted ->. apply Hdel. by left.
  - intros _. apply IH. intros deleted Hin. apply Hdel. by right.
Qed.

End Keeps.

(** * The properties of the specification *)

(** A create notification, against a store that accepts the write: one record
    in the registry, in state New, and one submission handed to the runner. *)
Example create_notification :
  let created := mkApp "pi" "default" "uid-1" "7" (mkSpec Never false) zeroStatus in
  let s' := (onAdd (acceptEnv buildOk) created (start ∅)).2 in
  map_to_list (runningApps s') = [("pi-15", setState NewState (setAppID "pi-15" created))]
  ∧ count isRunnerSubmit (trace s') = 1.
Proof. split; vm_compute; reflexivity. Qed.

(** C1, as amended.  When the store answers every write with a version
    conflict and every read with a record, and mutating the working copy or a
    record read back never gives the status of the original, the updater runs
    the mutation three times, writes three times, reads three times (the read
    after the third failed write is still made) and returns nil. *)
Theorem retries_under_permanent_conflict {W} (env : Env W) original toUpdate f (s : CState W) :
  (∀ ns app w, (clientUpdate env ns app w).1 = Err VersionConflict) →
  (∀ ns name w, ∃ latest, (clientGet env ns name w).1 = Ok latest) →
  (∀ ns name w latest, (clientGet env ns name w).1 = Ok latest →
     ∀ w', Status original ≠ Status (f latest w').1.1) →
  (∀ w', Status original ≠ Status (f toUpdate w').1.1) →
  (updateSparkApplicationWithRetries env original toUpdate f s).1 = None
  ∧ ∃ t, trace (updateSparkApplicationWithRetries env original toUpdate f s).2 = trace s ++ t
         ∧ count isCallUpdateFunc t = 3
         ∧ count isClientUpdate t = 3
         ∧ count isClientGet t = 3.
Proof.
  intros Hupd Hget Hdiff Hfirst.
  apply (updateLoop_all_writes_fail env maximumUpdateRetries original f Hupd Hget Hdiff
           toUpdate s Hfirst).
Qed.

Lemma retries_under_permanent_conflict_witness :
  (updateSparkApplicationWithRetries conflictEnv (pi Never NewState None)
     (pi Never NewState None) (appStateUpdateFunc runningUpdate) (start ∅)).1 = None
  ∧ ∃ t, trace (updateSparkApplicationWithRetries conflictEnv (pi Never NewState None)
                  (pi Never NewState None) (appStateUpdateFunc runningUpdate) (start ∅)).2
         = trace (start ∅) ++ t
         ∧ count isCallUpdateFunc t = 3
         ∧ count isClientUpdate t = 3
         ∧ count isClientGet t = 3.
Proof.
  apply (retries_under_permanent_conflict conflictEnv).
  - intros ns app w. reflexivity.
  - intros ns name w. eexists. reflexivity.
  - intros ns name w latest Hl w'. cbn in Hl. injection Hl as <-.
    vm_compute. discriminate.
  - intros w'. vm_compute. discriminate.
Defined.

(** C1, as stated, fails: against a store that always answers a version
    conflict and always serves the record, the third failed write is followed
    by a third read, so the reads are three and not two. *)
Lemma two_refetches_counterexample :
  let run := updateSparkApplicationWithRetries conflictEnv (pi Never NewState None)
               (pi Never NewState None) (appStateUpdateFunc runningUpdate) (start ∅) in
  (∀ ns app w, (clientUpdate conflictEnv ns app w).1 = Err VersionConflict)
  ∧ (∀ ns name w, ∃ latest, (clientGet conflictEnv ns name w).1 = Ok latest)
  ∧ run.1 = None
  ∧ count isCallUpdateFunc (trace run.2) = 3
  ∧ count isClientUpdate (trace run.2) = 3
  ∧ count isClientGet (trace run.2) = 3
  ∧ ¬ (count isCallUpdateFunc (trace run.2) = 3
       ∧ count isClientUpdate (trace run.2) = 3
       ∧ count isClientGet (trace run.2) = 2
       ∧ run.1 = None).
Proof.
  cbv zeta. split; [by intros | split; [by intros; eexists |]].
  repeat split; try (vm_compute; reflexivity).
  intros (_ & _ & Hgets & _). vm_compute in Hgets. discriminate.
Qed.

(** C2.  On a record whose state is Completed or Failed, the mutation of the
    worker-lifecycle reducer keeps [appState.state], and the mutation of the
    submission-outcome reducer keeps it too unless the incoming state is
    FailedSubmission, which it then gets.  Against a store that returns what
    it is given and serves the record in the state it is known in, the same
    holds of the registry once the event is processed: after a worker event
    the entry is in the state it was in; after a submission outcome the entry
    is the record the updater returned, in state FailedSubmission when that is
    the incoming state and in the old state otherwise, or the old entry when
    the updater returned nil. *)
Theorem terminal_state_is_kept {W} (env : Env W) (app : SparkApplication) :
  isAppTerminated (appStateOf app) = true →
  (∀ (update : executorStateUpdate.t) (w : W),
     appStateOf (executorUpdateFunc update app w).1.1 = appStateOf app)
  ∧ (∀ (update : appStateUpdate.t) (w : W),
       appStateOf (appStateUpdateFunc update app w).1.1
       = if bool_decide (appStateUpdate.state update = FailedSubmissionState)
         then FailedSubmissionState
         else appStateOf app)
  ∧ (statusKept env → servesStateOf env app →
     ∀ s : CState W,
       runningApps s !! AppID (Status app) = Some app →
       (∀ update,
          executorStateUpdate.appID update = AppID (Status app) →
          ∃ app', runningApps (processSingleExecutorStateUpdate env update s).2
                    !! AppID (Status app) = Some app'
                  ∧ appStateOf app' = appStateOf app)
       ∧ (∀ update,
            appStateUpdate.appID update = AppID (Status app) →
            match (updateSparkApplicationWithRetries env app app
                     (appStateUpdateFunc update) s).1 with
            | Some u =>
                runningApps (processSingleAppStateUpdate env update s).2
                  !! AppID (Status app) = Some u
                ∧ appStateOf u
                  = if bool_decide (appStateUpdate.state update = FailedSubmissionState)
                    then FailedSubmissionState else appStateOf app
            | None =>
                runningApps (processSingleAppStateUpdate env update s).2
                  !! AppID (Status app) = Some app
            end)).
Proof.
  intros Hterm. split; [| split].
  - intros update w. unfold appStateOf. by rewrite executorUpdateFunc_appState.
  - intros update w. rewrite appStateUpdateFunc_state, Hterm. cbn.
    by case_bool_decide.
  - intros Hwrite Hread s Hreg. split; intros update Hid.
    + by apply processSingleExecutorStateUpdate_state.
    + by apply processSingleAppStateUpdate_state.
Qed.

Lemma terminal_state_is_kept_witness :
  let app := pi Never CompletedState None in
  let s := start {["pi-100" := app]} in
  let failedSubmission := appStateUpdate.mk "pi-100" zeroTime zeroTime FailedSubmissionState "exit 1" in
  appStateOf (executorUpdateFunc (W:=nat) runningExecutor app 0).1.1 = CompletedState
  ∧ appStateOf (appStateUpdateFunc (W:=nat) runningUpdate app 0).1.1 = CompletedState
  ∧ appStateOf (appStateUpdateFunc (W:=nat) failedSubmission app 0).1.1
    = FailedSubmissionState
  ∧ (∃ app', runningApps (processSingleExecutorStateUpdate (acceptEnv buildOk)
                            runningExecutor s).2 !! "pi-100" = Some app'
             ∧ appStateOf app' = CompletedState)
  ∧ (∃ app', runningApps (processSingleAppStateUpdate (acceptEnv buildOk)
                            failedSubmission s).2 !! "pi-100" = Some app'
             ∧ appStateOf app' = FailedSubmissionState).
Proof.
  cbv zeta.
  destruct (terminal_state_is_kept (acceptEnv buildOk) (pi Never CompletedState None)
              eq_refl) as (Hexec & Happ & Hreg).
  split; [apply Hexec |]. split; [apply (Happ runningUpdate) |].
  split; [apply (Happ (appStateUpdate.mk "pi-100" zeroTime zeroTime FailedSubmissionState "exit 1")) |].
  destruct (Hreg) with (s := start {["pi-100" := pi Never CompletedState None]})
    as [Hworker Hsubmission].
  - intros ns a w r w' Hu. cbn in Hu. by injection Hu as <- _.
  - intros ns name w r w' Hg. discriminate Hg.
  - reflexivity.
  - split.
    + apply (Hworker runningExecutor). reflexivity.
    + specialize (Hsubmission
                    (appStateUpdate.mk "pi-100" zeroTime zeroTime FailedSubmissionState "exit 1")
                    eq_refl).
      vm_compute in Hsubmission. destruct Hsubmission as [Hentry Hstate].
      eexists. split; [exact Hentry | reflexivity].
Defined.

(** C3, on the code.  Once the record is persisted and registered, a failure
    to build the submission command is logged and the registry keeps the
    record, but the dispatcher does not stop there: unless the application is
    flagged as submitted by the user, it goes on and hands the runner one
    submission, made of the arguments that came back with the error. *)
Theorem build_failure_is_still_submitted {W} (env : Env W) app resubmission
    (s : CState W) updated s1 args err :
  updateSparkApplicationWithRetries env app app (submitUpdateFunc env resubmission) s
  = (Some updated, s1) →
  buildSubmissionCommandArgs env updated = (args, Some err) →
  SubmissionByUser (Spec updated) = false →
  let s' := (submitApp env app resubmission s).2 in
  runningApps s' !! AppID (Status updated) = Some updated
  ∧ trace s' = trace s1 ++ [ErrorLog (FailedToBuildSubmissionCommand (Name updated) err);
                            RunnerSubmit (newSubmission args updated)]
  ∧ count isRunnerSubmit (trace s') = S (count isRunnerSubmit (trace s)).
Proof.
  intros Hupd Hbuild Huser. cbv zeta.
  rewrite (submitApp_persisted env _ _ _ _ _ Hupd). cbn [snd runningApps trace].
  split; [apply lookup_insert_eq |].
  unfold submissionEvents. rewrite Hbuild, Huser. cbn [negb Datatypes.app].
  split; [done |].
  destruct (updateLoop_frame env maximumUpdateRetries app
              (submitUpdateFunc env resubmission) app s) as [_ (t & Ht & Hall)].
  fold (updateSparkApplicationWithRetries env app app
          (submitUpdateFunc env resubmission) s) in Ht.
  rewrite Hupd in Ht. cbn [snd] in Ht. rewrite Ht, !count_app, !count_cons.
  rewrite (count_updater_events isRunnerSubmit t); [| by intros [] | done].
  cbn [isRunnerSubmit]. unfold count at 2. cbn. lia.
Qed.

Lemma build_failure_is_still_submitted_witness :
  let created := mkApp "pi" "default" "uid-1" "7" (mkSpec Never false) zeroStatus in
  let updated := setState NewState (setAppID "pi-15" created) in
  let s' := (submitApp (acceptEnv buildFails) created false (start ∅)).2 in
  runningApps s' !! "pi-15" = Some updated
  ∧ trace s' = [CallUpdateFunc; ClientUpdate "default" updated]
               ++ [ErrorLog (FailedToBuildSubmissionCommand "pi"
                               (OtherError "no main application file"));
                   RunnerSubmit (newSubmission [] updated)]
  ∧ count isRunnerSubmit (trace s') = 1.
Proof.
  cbv zeta.
  apply (build_failure_is_still_submitted (acceptEnv buildFails)
           (mkApp "pi" "default" "uid-1" "7" (mkSpec Never false) zeroStatus) false (start ∅)
           (setState NewState
              (setAppID "pi-15"
                 (mkApp "pi" "default" "uid-1" "7" (mkSpec Never false) zeroStatus)))
           (mkCState 2 ∅
              [CallUpdateFunc;
               ClientUpdate "default"
                 (setState NewState
                    (setAppID "pi-15"
                       (mkApp "pi" "default" "uid-1" "7" (mkSpec Never false) zeroStatus)))])
           [] (OtherError "no main application file"));
    reflexivity.
Defined.

(** C4.  [handleRestart] resubmits, that is, records the resubmission event
    and runs [submitApp] with the resubmission flag set, exactly when the
    policy is Always, or the policy is OnFailure and the state is Failed; in
    every other case, for whatever policy and state, it does nothing.  This
    covers the eight combinations of the four policies with the two terminal
    states. *)
Theorem restart_eligibility {W} (env : Env W) (app : SparkApplication) (s : CState W) :
  let eligible :=
    RestartPolicy (Spec app) = Always
    ∨ (RestartPolicy (Spec app) = OnFailure ∧ appStateOf app = FailedState) in
  (eligible →
     handleRestart env app s
     = submitApp env app true
         (mkCState (world s) (runningApps s)
            (trace s ++ [RecorderEvent app "SparkApplicationResubmission"
                           ("Re-submitting SparkApplication: " +:+ Name app)])))
  ∧ (¬ eligible → handleRestart env app s = (tt, s))
  ∧ (count isResubmission (trace (handleRestart env app s).2)
     = S (count isResubmission (trace s)) ↔ eligible).
Proof.
  cbv zeta.
  split; [apply handleRestart_resubmits | split; [apply handleRestart_skips |]].
  split.
  - intros Hcount.
    destruct (decide (RestartPolicy (Spec app) = Always
                      ∨ (RestartPolicy (Spec app) = OnFailure
                         ∧ appStateOf app = FailedState))) as [Hel | Hel]; [done |].
    rewrite (handleRestart_skips env app s Hel) in Hcount. cbn [snd] in Hcount. lia.
  - intros Hel. rewrite (handleRestart_resubmits env app s Hel), submitApp_recorder_silent.
    cbn [trace].
    rewrite count_app, count_cons. cbn [isResubmission]. rewrite bool_decide_eq_true_2 by done.
    unfold count at 2. cbn. lia.
Qed.

Lemma restart_eligibility_witness :
  let restarted policy st :=
    count isResubmission
      (trace (handleRestart (acceptEnv buildOk) (pi policy st None) (start ∅)).2) = 1 in
  ¬ restarted Never CompletedState ∧ ¬ restarted Never FailedState
  ∧ ¬ restarted OnFailure CompletedState ∧ restarted OnFailure FailedState
  ∧ restarted Always CompletedState ∧ restarted Always FailedState
  ∧ ¬ restarted Undefined CompletedState ∧ ¬ restarted Undefined FailedState.
Proof.
  cbv zeta.
  pose proof (λ policy st,
    proj2 (proj2 (restart_eligibility (acceptEnv buildOk) (pi policy st None) (start ∅))))
    as Htable.
  cbv zeta in Htable.
  repeat split;
    try (intros Hrun; apply (Htable _ _) in Hrun;
         destruct Hrun as [Hp | [Hp Hst]]; discriminate);
    apply (Htable _ _); vm_compute; tauto.
Defined.

(** C5, as amended.  A worker-lifecycle event with state Pending creates no
    entry, for that pod or any other, and changes none.  When the map of the
    record is allocated, the record is left as it is and processing the event
    for a tracked application ends after the mutation, the registry and the
    store untouched; when the map is nil, the mutation allocates an empty
    one. *)
Theorem pending_worker_creates_no_entry {W} (env : Env W) update app (s : CState W) :
  executorStateUpdate.state update = ExecutorPendingState →
  let app' := (executorUpdateFunc update app (world s)).1.1 in
  (∀ pod, executorsOf app' !! pod = executorsOf app !! pod)
  ∧ (ExecutorState (Status app) ≠ None → app' = app)
  ∧ (ExecutorState (Status app) = None → ExecutorState (Status app') = Some ∅)
  ∧ (runningApps s !! executorStateUpdate.appID update = Some app →
     ExecutorState (Status app) ≠ None →
     processSingleExecutorStateUpdate env update s
     = (tt, mkCState (world s) (runningApps s) (trace s ++ [CallUpdateFunc]))).
Proof.
  intros Hpending. cbv zeta.
  rewrite (executorUpdateFunc_pending update app (world s) Hpending). cbn [fst].
  repeat split.
  - intros pod. unfold executorsOf.
    by destruct app as [? ? ? ? ? [? ? ? ? ? [m |]]].
  - intros Hsome. by destruct (ExecutorState (Status app)).
  - intros Hnone. by rewrite Hnone.
  - intros Hreg Hsome.
    unfold processSingleExecutorStateUpdate, registryLookup, mbind, mret, M_bind, M_ret.
    rewrite Hreg.
    destruct (ExecutorState (Status app)) as [m |] eqn:Hm; [| done].
    assert (Hf : executorUpdateFunc update app (world s) = (app, world s, [])).
    { by rewrite (executorUpdateFunc_pending update app (world s) Hpending), Hm. }
    unfold updateSparkApplicationWithRetries, maximumUpdateRetries.
    by rewrite (updateLoop_unchanged env 2 app app (executorUpdateFunc update) s
                  app (world s) [] Hf eq_refl).
Qed.

Lemma pending_worker_creates_no_entry_witness :
  let app := pi Never RunningState (Some {["pi-exec-0" := ExecutorRunningState]}) in
  let s := start {["pi-100" := app]} in
  let app' := (executorUpdateFunc pendingUpdate app (world s)).1.1 in
  (∀ pod, executorsOf app' !! pod = executorsOf app !! pod)
  ∧ app' = app
  ∧ processSingleExecutorStateUpdate conflictEnv pendingUpdate s
    = (tt, mkCState (world s) (runningApps s) (trace s ++ [CallUpdateFunc])).
Proof.
  cbv zeta.
  destruct (pending_worker_creates_no_entry conflictEnv pendingUpdate
              (pi Never RunningState (Some {["pi-exec-0" := ExecutorRunningState]}))
              (start {["pi-100" :=
                         pi Never RunningState
                           (Some {["pi-exec-0" := ExecutorRunningState]})]})
              eq_refl) as (Hentries & Hsame & _ & Hprocess).
  split; [exact Hentries | split].
  - apply Hsame. discriminate.
  - apply Hprocess; [reflexivity | discriminate].
Defined.

(** C5, as stated, fails on a record whose map is nil: the event is a Pending
    one for a pod the tracked application has never seen, and yet the field
    goes from nil to an allocated empty map, the status no longer equals the
    original, and a write reaches the store. *)
Lemma pending_worker_counterexample :
  let app := pi Never RunningState None in
  let s := start {["pi-100" := app]} in
  let app' := (executorUpdateFunc pendingUpdate app (world s)).1.1 in
  let s' := (processSingleExecutorStateUpdate (acceptEnv buildOk) pendingUpdate s).2 in
  runningApps s !! executorStateUpdate.appID pendingUpdate = Some app
  ∧ executorStateUpdate.state pendingUpdate = ExecutorPendingState
  ∧ executorsOf app !! executorStateUpdate.podName pendingUpdate = None
  ∧ ExecutorState (Status app) = None
  ∧ ExecutorState (Status app') = Some ∅
  ∧ ExecutorState (Status app') ≠ ExecutorState (Status app)
  ∧ trace s' = [CallUpdateFunc; ClientUpdate "default" app']
  ∧ runningApps s' !! "pi-100" = Some app'.
Proof. cbv zeta. repeat split; try (vm_compute; reflexivity). vm_compute. discriminate. Qed.

(** C6.  When the mutation gives the working copy the status of the original,
    the updater returns nil straight after the mutation: the world is the one
    the mutation left, the registry is untouched, and the trace has grown by
    the mutation alone, without any write (or read) on the store.  The two
    statuses are compared as [reflect.DeepEqual] compares them, timestamps
    included: field by field, on the representation. *)
Theorem unchanged_status_short_circuit {W} (env : Env W) original toUpdate f
    (s : CState W) m w1 logs :
  f toUpdate (world s) = (m, w1, logs) →
  Status m = Status original →
  updateSparkApplicationWithRetries env original toUpdate f s
  = (None, mkCState w1 (runningApps s) (trace s ++ CallUpdateFunc :: map ErrorLog logs))
  ∧ count isClientUpdate
      (trace (updateSparkApplicationWithRetries env original toUpdate f s).2)
    = count isClientUpdate (trace s)
  ∧ count isClientGet
      (trace (updateSparkApplicationWithRetries env original toUpdate f s).2)
    = count isClientGet (trace s).
Proof.
  intros Hf Heq. unfold updateSparkApplicationWithRetries, maximumUpdateRetries.
  rewrite (updateLoop_unchanged env 2 original toUpdate f s m w1 logs Hf (eq_sym Heq)).
  unfold mutated. cbn [snd trace].
  rewrite !count_app, !count_cons, !count_logs by done. cbn. split; [done |]. lia.
Qed.

Lemma unchanged_status_short_circuit_witness :
  updateSparkApplicationWithRetries conflictEnv (pi Never RunningState (Some ∅))
    (pi Never RunningState (Some ∅)) (executorUpdateFunc pendingUpdate) (start ∅)
  = (None, mkCState 0 ∅ [CallUpdateFunc])
  ∧ count isClientUpdate
      (trace (updateSparkApplicationWithRetries conflictEnv (pi Never RunningState (Some ∅))
                (pi Never RunningState (Some ∅)) (executorUpdateFunc pendingUpdate)
                (start ∅)).2) = 0
  ∧ count isClientGet
      (trace (updateSparkApplicationWithRetries conflictEnv (pi Never RunningState (Some ∅))
                (pi Never RunningState (Some ∅)) (executorUpdateFunc pendingUpdate)
                (start ∅)).2) = 0.
Proof.
  apply (unchanged_status_short_circuit conflictEnv (pi Never RunningState (Some ∅))
           (pi Never RunningState (Some ∅)) (executorUpdateFunc pendingUpdate) (start ∅)
           (pi Never RunningState (Some ∅)) 0 []); reflexivity.
Defined.

(** The comparison is on the representation: a submission outcome that brings
    the instant the record already has, expressed in another location, makes
    the status differ, and the write is made. *)
Example same_instant_other_location_is_written :
  let app := setSubmissionTime (mkTime 5 None (Some "Local")) (pi Never RunningState None) in
  let update := appStateUpdate.mk "pi-100" (utc 5) zeroTime RunningState "" in
  let run := updateSparkApplicationWithRetries (acceptEnv buildOk) app app
               (appStateUpdateFunc update) (start ∅) in
  instant (SubmissionTime (Status app)) = instant (appStateUpdate.submissionTime update)
  ∧ run.1 = Some (setSubmissionTime (utc 5) app)
  ∧ count isClientUpdate (trace run.2) = 1.
Proof. cbv zeta. repeat split; vm_compute; reflexivity. Qed.

(** C7.  The driver pod phase is mapped by the table pending → Submitted,
    running → Running, succeeded → Completed, failed → Failed, anything else →
    the empty state, and the mutation of the driver-lifecycle reducer stores
    the mapped state in [appState.state] exactly when it is Completed or
    Failed; otherwise [appState.state] stays as it was. *)
Theorem driver_phase_mapping {W} (env : Env W) :
  driverPodPhaseToApplicationState PodPending = SubmittedState
  ∧ driverPodPhaseToApplicationState PodRunning = RunningState
  ∧ driverPodPhaseToApplicationState PodSucceeded = CompletedState
  ∧ driverPodPhaseToApplicationState PodFailed = FailedState
  ∧ (∀ phase, phase ∉ [PodPending; PodRunning; PodSucceeded; PodFailed] →
       driverPodPhaseToApplicationState phase = "")
  ∧ ∀ update toUpdate w,
      let mapped := driverPodPhaseToApplicationState (driverStateUpdate.podPhase update) in
      (mapped = CompletedState ∨ mapped = FailedState →
         appStateOf (driverUpdateFunc env update toUpdate w).1.1 = mapped)
      ∧ (¬ (mapped = CompletedState ∨ mapped = FailedState) →
         appStateOf (driverUpdateFunc env update toUpdate w).1.1 = appStateOf toUpdate).
Proof.
  repeat split; try reflexivity.
  - intros phase Hnot. unfold driverPodPhaseToApplicationState.
    repeat case_bool_decide; try done; subst; exfalso; apply Hnot; set_solver.
  - intros Hterm. rewrite driverUpdateFunc_state.
    apply isAppTerminated_spec in Hterm. by rewrite Hterm.
  - intros Hnot. rewrite driverUpdateFunc_state.
    destruct (isAppTerminated _) eqn:Hterm; [| done].
    by apply isAppTerminated_spec in Hterm.
Qed.

Lemma driver_phase_mapping_witness :
  driverPodPhaseToApplicationState PodUnknown = ""
  ∧ appStateOf (driverUpdateFunc conflictEnv
                  (driverStateUpdate.mk "pi-100" "pi-driver" "" PodSucceeded)
                  (pi Never RunningState None) 0).1.1 = CompletedState
  ∧ appStateOf (driverUpdateFunc conflictEnv
                  (driverStateUpdate.mk "pi-100" "pi-driver" "" PodRunning)
                  (pi Never SubmittedState None) 0).1.1 = SubmittedState.
Proof.
  destruct (driver_phase_mapping conflictEnv) as (_ & _ & _ & _ & Hother & Hmut).
  split; [| split].
  - apply Hother. vm_compute. intros Hin.
    repeat (apply elem_of_cons in Hin as [Hin | Hin]; [discriminate Hin |]).
    by apply elem_of_nil in Hin.
  - apply (Hmut (driverStateUpdate.mk "pi-100" "pi-driver" "" PodSucceeded)).
    left. reflexivity.
  - apply (Hmut (driverStateUpdate.mk "pi-100" "pi-driver" "" PodRunning)
             (pi Never SubmittedState None) 0).
    vm_compute. intros [Heq | Heq]; discriminate Heq.
Defined.

(** C8, as amended.  For the submission-outcome reducer and the worker
    reducer, running the mutation a second time, straight after the first, on
    the same working copy and for the same event, gives the status the first
    run gave.  For the driver reducer it does so when the node directory, asked
    again by the second run, gives the external address it gave the first run,
    or none. *)
Theorem mutations_are_idempotent {W} (env : Env W) (toUpdate : SparkApplication) (w : W) :
  (∀ update : appStateUpdate.t,
     let '(once, w1, _) := appStateUpdateFunc update toUpdate w in
     Status (appStateUpdateFunc update once w1).1.1 = Status once)
  ∧ (∀ update : driverStateUpdate.t,
       let '(once, w1, _) := driverUpdateFunc env update toUpdate w in
       (getNodeExternalIP env (driverStateUpdate.nodeName update) w1).1.1
       = (getNodeExternalIP env (driverStateUpdate.nodeName update) w).1.1
       ∨ (getNodeExternalIP env (driverStateUpdate.nodeName update) w1).1.1 = "" →
       Status (driverUpdateFunc env update once w1).1.1 = Status once)
  ∧ (∀ update : executorStateUpdate.t,
       let '(once, w1, _) := executorUpdateFunc update toUpdate w in
       Status (executorUpdateFunc update once w1).1.1 = Status once).
Proof.
  split; [| split]; intros update.
  - destruct (appStateUpdateFunc update toUpdate w) as [[once w1] logs] eqn:E.
    pose proof (appStateUpdateFunc_twice update toUpdate w w1) as H.
    rewrite E in H. cbn [fst] in H. by rewrite H.
  - destruct (driverUpdateFunc env update toUpdate w) as [[once w1] logs] eqn:E.
    intros Hsame.
    pose proof (driverUpdateFunc_twice env update toUpdate w w1 Hsame) as H.
    rewrite E in H. cbn [fst] in H. by rewrite H.
  - destruct (executorUpdateFunc update toUpdate w) as [[once w1] logs] eqn:E.
    pose proof (executorUpdateFunc_twice update toUpdate w w1) as H.
    rewrite E in H. cbn [fst] in H. by rewrite H.
Qed.

Lemma mutations_are_idempotent_witness :
  let steady := scripted (λ app _, Ok app) (λ _ _, Err NotFound)
                  (λ _, Ok (mkNode [mkNodeAddress NodeExternalIP "34.1.2.3"])) buildOk in
  let update := driverStateUpdate.mk "pi-100" "pi-driver" "node-1" PodSucceeded in
  let once := (driverUpdateFunc steady update (pi Never RunningState None) 0).1.1 in
  WebUIAddress (DriverInfo (Status once)) = "34.1.2.3:4040"
  ∧ Status (driverUpdateFunc steady update once 1).1.1 = Status once.
Proof.
  cbv zeta. split; [reflexivity |].
  apply (proj1 (proj2 (mutations_are_idempotent
                         (scripted (λ app _, Ok app) (λ _ _, Err NotFound)
                            (λ _, Ok (mkNode [mkNodeAddress NodeExternalIP "34.1.2.3"]))
                            buildOk)
                         (pi Never RunningState None) 0))
           (driverStateUpdate.mk "pi-100" "pi-driver" "node-1" PodSucceeded)).
  left. reflexivity.
Defined.

(** C8, as stated, fails for the driver reducer: its mutation asks the node
    directory on every run, and when the second answer differs from the first
    the UI address follows it, so the status after two runs is not the status
    after one. *)
Lemma second_lookup_counterexample :
  let update := driverStateUpdate.mk "pi-100" "pi-driver" "node-1" PodRunning in
  let first := driverUpdateFunc movingEnv update (pi Never RunningState None) 0 in
  let once := first.1.1 in
  let twice := (driverUpdateFunc movingEnv update once first.1.2).1.1 in
  WebUIAddress (DriverInfo (Status once)) = "34.1.2.3:4040"
  ∧ WebUIAddress (DriverInfo (Status twice)) = "34.9.9.9:4040"
  ∧ Status twice ≠ Status once.
Proof.
  cbv zeta. split; [reflexivity | split; [reflexivity |]].
  vm_compute. discriminate.
Qed.

(** C9.  Whatever error [e] the write returns, the turn goes on the same way:
    the working copy is dropped and the record is read again by the name of
    the working copy; when the read gives a record, the loop carries on with
    it (the next turn, if one is left, mutates, compares and writes again);
    when the read fails, with whatever error [e'], nil is returned at once
    after that single read, and [e'] only shows in the error log.  The
    right-hand side does not depend on [e]. *)
Theorem any_write_error_refetches {W} (env : Env W) n original toUpdate f
    (s : CState W) m w1 logs e w2 :
  f toUpdate (world s) = (m, w1, logs) →
  Status original ≠ Status m →
  clientUpdate env (Namespace m) m w1 = (Err e, w2) →
  updateLoop env (S n) original toUpdate f s
  = match clientGet env (Namespace m) (Name m) w2 with
    | (Ok latest, w3) =>
        updateLoop env n original latest f
          (mkCState w3 (runningApps s)
             (trace s ++ CallUpdateFunc :: map ErrorLog logs
                ++ [ClientUpdate (Namespace m) m; ClientGet (Namespace m) (Name m)]))
    | (Err e', w3) =>
        (None,
         mkCState w3 (runningApps s)
           (trace s ++ CallUpdateFunc :: map ErrorLog logs
              ++ [ClientUpdate (Namespace m) m; ClientGet (Namespace m) (Name m);
                  ErrorLog (FailedToGetSparkApplication (Name m) e')]))
    end.
Proof.
  intros Hf Hne Hu.
  destruct (clientGet env (Namespace m) (Name m) w2) as [[latest | e'] w3] eqn:Hg.
  - by rewrite (updateLoop_refetched env n _ _ _ _ _ _ _ _ _ _ _ Hf Hne Hu Hg).
  - rewrite (updateLoop_fetch_failed env n _ _ _ _ _ _ _ _ _ _ _ Hf Hne Hu Hg).
    unfold fetched; cbn. by list_assoc.
Qed.

Lemma any_write_error_refetches_witness :
  let app := pi Never NewState None in
  let m := (appStateUpdateFunc runningUpdate app 0).1.1 in
  let f := appStateUpdateFunc (W:=nat) runningUpdate in
  updateLoop (brokenEnv (OtherError "connection refused") NotFound) 3 app app f (start ∅)
  = (None, mkCState 2 ∅ [CallUpdateFunc; ClientUpdate "default" m; ClientGet "default" "pi";
                         ErrorLog (FailedToGetSparkApplication "pi" NotFound)])
  ∧ updateLoop (brokenEnv VersionConflict NotFound) 3 app app f (start ∅)
    = (None, mkCState 2 ∅ [CallUpdateFunc; ClientUpdate "default" m; ClientGet "default" "pi";
                           ErrorLog (FailedToGetSparkApplication "pi" NotFound)]).
Proof.
  cbv zeta. split.
  - apply (any_write_error_refetches (brokenEnv (OtherError "connection refused") NotFound)
             2 (pi Never NewState None) (pi Never NewState None)
             (appStateUpdateFunc runningUpdate) (start ∅)
             (appStateUpdateFunc runningUpdate (pi Never NewState None) 0).1.1 0 []
             (OtherError "connection refused") 1);
      [reflexivity | vm_compute; discriminate | reflexivity].
  - apply (any_write_error_refetches (brokenEnv VersionConflict NotFound)
             2 (pi Never NewState None) (pi Never NewState None)
             (appStateUpdateFunc runningUpdate) (start ∅)
             (appStateUpdateFunc runningUpdate (pi Never NewState None) 0).1.1 0 []
             VersionConflict 1);
      [reflexivity | vm_compute; discriminate | reflexivity].
Defined.




(** * Further properties of the controller *)

(** ** The status updater, against any store *)

Section UpdaterAccounting.
Context {W : Type} (env : Env W).

Lemma updateLoop_accounting n original f : ∀ toUpdate (s : CState W),
  ∃ t, trace (updateLoop env n original toUpdate f s).2 = trace s ++ t
       ∧ (count isCallUpdateFunc t ≤ n)%nat
       ∧ match (updateLoop env n original toUpdate f s).1 with
         | Some _ =>
             count isCallUpdateFunc t = count isClientUpdate t
             ∧ count isClientUpdate t = S (count isClientGet t)
         | None =>
             count isClientGet t = count isClientUpdate t
             ∧ (count isCallUpdateFunc t = count isClientUpdate t
                ∨ count isCallUpdateFunc t = S (count isClientUpdate t))
         end.
Proof.
  induction n as [|n IH]; intros toUpdate s.
  - exists []. cbn. rewrite app_nil_r. repeat split; auto.
  - destruct (f toUpdate (world s)) as [[m w1] logs] eqn:Hf.
    destruct (decide (Status original = Status m)) as [Heq | Hne].
    { rewrite (updateLoop_unchanged env n _ _ _ _ _ _ _ Hf Heq). cbn [fst snd mutated trace].
      eexists; split; [done |].
      rewrite !count_cons, !count_logs by done. cbn. split; [lia |]. split; [done | by right]. }
    destruct (clientUpdate env (Namespace m) m w1) as [[r | e] w2] eqn:Hu.
    { rewrite (updateLoop_written env n _ _ _ _ _ _ _ _ _ Hf Hne Hu).
      cbn [fst snd written trace]. eexists; split; [done |].
      rewrite !count_cons, !count_app, !count_cons, !count_logs by done. cbn.
      split; [lia |]. split; reflexivity. }
    destruct (clientGet env (Namespace m) (Name m) w2) as [[latest | e'] w3] eqn:Hg.
    + rewrite (updateLoop_refetched env n _ _ _ _ _ _ _ _ _ _ _ Hf Hne Hu Hg).
      destruct (IH latest (fetched s m w3 logs)) as (t & Ht & Hle & Hres).
      rewrite Ht. cbn [fetched trace].
      eexists; split; [by list_assoc |].
      rewrite !count_cons, !count_app, !count_cons, !count_logs by done. cbn.
      split; [lia |].
      destruct (updateLoop env n original latest f (fetched s m w3 logs)).1; lia.
    + rewrite (updateLoop_fetch_failed env n _ _ _ _ _ _ _ _ _ _ _ Hf Hne Hu Hg).
      cbn [fst snd fetched trace]. eexists; split; [by list_assoc |].
      rewrite !count_cons, !count_app, !count_cons, !count_logs by done. cbn.
      split; [lia |]. split; [reflexivity | by left].
Qed.

Lemma updateLoop_provenance n original f : ∀ toUpdate (s : CState W) r,
  (updateLoop env n original toUpdate f s).1 = Some r →
  ∃ m w, last (trace (updateLoop env n original toUpdate f s).2)
         = Some (ClientUpdate (Namespace m) m)
         ∧ clientUpdate env (Namespace m) m w
           = (Ok r, world (updateLoop env n original toUpdate f s).2)
         ∧ Status original ≠ Status m.
Proof.
  induction n as [|n IH]; intros toUpdate s r Hres; [discriminate Hres |].
  destruct (f toUpdate (world s)) as [[m w1] logs] eqn:Hf.
  destruct (decide (Status original = Status m)) as [Heq | Hne].
  { by rewrite (updateLoop_unchanged env n _ _ _ _ _ _ _ Hf Heq) in Hres. }
  destruct (clientUpdate env (Namespace m) m w1) as [[r' | e] w2] eqn:Hu.
  { rewrite (updateLoop_written env n _ _ _ _ _ _ _ _ _ Hf Hne Hu) in Hres |- *.
    injection Hres as <-. exists m, w1. cbn [fst snd written trace world].
    split; [| done].
    rewrite app_comm_cons, app_assoc. apply last_snoc. }
  destruct (clientGet env (Namespace m) (Name m) w2) as [[latest | e'] w3] eqn:Hg.
  - rewrite (updateLoop_refetched env n _ _ _ _ _ _ _ _ _ _ _ Hf Hne Hu Hg) in Hres |- *.
    by apply IH.
  - by rewrite (updateLoop_fetch_failed env n _ _ _ _ _ _ _ _ _ _ _ Hf Hne Hu Hg) in Hres.
Qed.

End UpdaterAccounting.

(** X1.  Whatever the store answers, one call of the status updater runs the
    mutation at most three times, and its calls pair up: when it returns a
    record it has written once per mutation and read once less; when it
    returns nil it has read as often as it has written, and has run the
    mutation as often, or once more (the turn that found nothing to write). *)
Theorem updater_call_accounting {W} (env : Env W) original toUpdate f (s : CState W) :
  ∃ t, trace (updateSparkApplicationWithRetries env original toUpdate f s).2 = trace s ++ t
       ∧ (count isCallUpdateFunc t ≤ 3)%nat
       ∧ match (updateSparkApplicationWithRetries env original toUpdate f s).1 with
         | Some _ =>
             count isCallUpdateFunc t = count isClientUpdate t
             ∧ count isClientUpdate t = S (count isClientGet t)
         | None =>
             count isClientGet t = count isClientUpdate t
             ∧ (count isCallUpdateFunc t = count isClientUpdate t
                ∨ count isCallUpdateFunc t = S (count isClientUpdate t))
         end.
Proof. apply (updateLoop_accounting env maximumUpdateRetries). Qed.

(** X2.  The status updater never touches the registry, never records an
    event and never hands anything to the runner: all it adds to the trace are
    mutation marks, store calls and error logs. *)
Theorem updater_stays_in_its_lane {W} (env : Env W) original toUpdate f (s : CState W) :
  runningApps (updateSparkApplicationWithRetries env original toUpdate f s).2 = runningApps s
  ∧ ∃ t, trace (updateSparkApplicationWithRetries env original toUpdate f s).2 = trace s ++ t
         ∧ count isRecorderEvent t = 0
         ∧ count isRunnerSubmit t = 0.
Proof.
  destruct (updateLoop_frame env maximumUpdateRetries original f toUpdate s)
    as [Hreg (t & Ht & Hall)].
  split; [exact Hreg |]. exists t. split; [exact Ht |].
  split; apply count_updater_events; try done; by intros [].
Qed.

(** X3.  A record returned by the status updater is the answer of the store
    to the last call made, a write of a mutated record whose status differed
    from the original; the updater never returns a record of its own making. *)
Theorem updater_returns_what_the_store_wrote {W} (env : Env W) original toUpdate f
    (s : CState W) r :
  (updateSparkApplicationWithRetries env original toUpdate f s).1 = Some r →
  ∃ m w, last (trace (updateSparkApplicationWithRetries env original toUpdate f s).2)
         = Some (ClientUpdate (Namespace m) m)
         ∧ clientUpdate env (Namespace m) m w
           = (Ok r, world (updateSparkApplicationWithRetries env original toUpdate f s).2)
         ∧ Status original ≠ Status m.
Proof. apply (updateLoop_provenance env maximumUpdateRetries). Qed.

Lemma updater_returns_what_the_store_wrote_witness :
  let app := pi Never NewState None in
  ∃ m w, last (trace (updateSparkApplicationWithRetries (acceptEnv buildOk) app app
                        (appStateUpdateFunc runningUpdate) (start ∅)).2)
         = Some (ClientUpdate (Namespace m) m)
         ∧ clientUpdate (acceptEnv buildOk) (Namespace m) m w
           = (Ok (setSubmissionTime (utc 5) (setState RunningState app)),
              world (updateSparkApplicationWithRetries (acceptEnv buildOk) app app
                       (appStateUpdateFunc runningUpdate) (start ∅)).2)
         ∧ Status app ≠ Status m.
Proof.
  cbv zeta.
  apply (updater_returns_what_the_store_wrote (acceptEnv buildOk)
           (pi Never NewState None) (pi Never NewState None)
           (appStateUpdateFunc runningUpdate) (start ∅)).
  reflexivity.
Defined.

(** ** Events for applications that are not tracked *)

Section Untracked.
Context {W : Type} (env : Env W).

Lemma processSingleAppStateUpdate_untracked update (s : CState W) :
  runningApps s !! appStateUpdate.appID update = None →
  processSingleAppStateUpdate env update s = (tt, s).
Proof.
  intros Hnone. unfold processSingleAppStateUpdate, registryLookup, mbind, M_bind.
  by rewrite Hnone.
Qed.

Lemma processSingleExecutorStateUpdate_untracked update (s : CState W) :
  runningApps s !! executorStateUpdate.appID update = None →
  processSingleExecutorStateUpdate env update s = (tt, s).
Proof.
  intros Hnone. unfold processSingleExecutorStateUpdate, registryLookup, mbind, M_bind.
  by rewrite Hnone.
Qed.

Lemma driverStateStep_untracked update (s : CState W) :
  runningApps s !! driverStateUpdate.appID update = None →
  driverStateStep env update s = (tt, s).
Proof.
  intros Hnone.
  unfold driverStateStep, processSingleDriverStateUpdate, registryLookup, mbind, M_bind.
  by rewrite Hnone.
Qed.

End Untracked.

(** X4.  Events that name an appID the registry does not hold are dropped, on
    each of the three channels and however many of them arrive: no store
    call, no log, no recorder event, no restart, and the registry as it was. *)
Theorem untracked_events_are_dropped {W} (env : Env W) (s : CState W)
    (outcomes : list appStateUpdate.t) (drivers : list driverStateUpdate.t)
    (workers : list executorStateUpdate.t) :
  (∀ update, update ∈ outcomes → runningApps s !! appStateUpdate.appID update = None) →
  (∀ update, update ∈ drivers → runningApps s !! driverStateUpdate.appID update = None) →
  (∀ update, update ∈ workers → runningApps s !! executorStateUpdate.appID update = None) →
  processAppStateUpdates env outcomes s = (tt, s)
  ∧ processDriverStateUpdates env drivers s = (tt, s)
  ∧ processExecutorStateUpdates env workers s = (tt, s).
Proof.
  intros Ho Hd Hw. split; [| split].
  - induction outcomes as [|u us IH]; [done |].
    cbn [processAppStateUpdates]. unfold mbind, M_bind.
    rewrite processSingleAppStateUpdate_untracked by (apply Ho; by left).
    apply IH. intros u' Hin. apply Ho. by right.
  - induction drivers as [|u us IH]; [done |].
    cbn [processDriverStateUpdates]. unfold mbind, M_bind.
    rewrite driverStateStep_untracked by (apply Hd; by left).
    apply IH. intros u' Hin. apply Hd. by right.
  - induction workers as [|u us IH]; [done |].
    cbn [processExecutorStateUpdates]. unfold mbind, M_bind.
    rewrite processSingleExecutorStateUpdate_untracked by (apply Hw; by left).
    apply IH. intros u' Hin. apply Hw. by right.
Qed.

Lemma untracked_events_are_dropped_witness :
  let s := start {["pi-100" := pi Always RunningState None]} in
  let late := driverStateUpdate.mk "pi-15" "pi-driver" "node-1" PodFailed in
  processAppStateUpdates conflictEnv
    [appStateUpdate.mk "pi-15" (utc 5) zeroTime RunningState ""; appStateUpdate.mk "" zeroTime zeroTime "" ""] s
  = (tt, s)
  ∧ processDriverStateUpdates conflictEnv [late; late] s = (tt, s)
  ∧ processExecutorStateUpdates conflictEnv
      [executorStateUpdate.mk "pi-15" "pi-exec-1" "1" ExecutorFailedState] s
    = (tt, s).
Proof.
  cbv zeta.
  apply (untracked_events_are_dropped conflictEnv
           (start {["pi-100" := pi Always RunningState None]})).
  - intros update Hin.
    repeat (apply elem_of_cons in Hin as [-> | Hin]; [reflexivity |]).
    by apply elem_of_nil in Hin.
  - intros update Hin.
    repeat (apply elem_of_cons in Hin as [-> | Hin]; [reflexivity |]).
    by apply elem_of_nil in Hin.
  - intros update Hin.
    repeat (apply elem_of_cons in Hin as [-> | Hin]; [reflexivity |]).
    by apply elem_of_nil in Hin.
Defined.

(** X5.  [submitApp] registers and submits only what the store has taken: when
    the updater returns a record, that record is put in the registry under
    its appID and the runner is handed exactly one submission, or none if the
    record is flagged as submitted by the user; when the updater returns nil,
    the registry is left as it was and nothing is handed to the runner. *)
Theorem submitApp_follows_the_persisted_record {W} (env : Env W) app resubmission
    (s : CState W) :
  match (updateSparkApplicationWithRetries env app app
           (submitUpdateFunc env resubmission) s).1 with
  | Some updated =>
      runningApps (submitApp env app resubmission s).2
      = <[AppID (Status updated) := updated]> (runningApps s)
      ∧ count isRunnerSubmit (trace (submitApp env app resubmission s).2)
        = count isRunnerSubmit (trace s)
          + (if SubmissionByUser (Spec updated) then 0 else 1)
  | None =>
      runningApps (submitApp env app resubmission s).2 = runningApps s
      ∧ count isRunnerSubmit (trace (submitApp env app resubmission s).2)
        = count isRunnerSubmit (trace s)
  end.
Proof.
  destruct (updateLoop_frame env maximumUpdateRetries app
              (submitUpdateFunc env resubmission) app s) as [Hreg (t & Ht & Hall)].
  fold (updateSparkApplicationWithRetries env app app
          (submitUpdateFunc env resubmission) s) in Hreg, Ht.
  assert (Hsilent : count isRunnerSubmit t = 0)
    by (apply count_updater_events; [by intros [] | done]).
  destruct (updateSparkApplicationWithRetries env app app
              (submitUpdateFunc env resubmission) s) as [[updated |] s1] eqn:Hupd;
    cbn [fst snd] in *.
  - rewrite (submitApp_persisted env _ _ _ _ _ Hupd). cbn [snd runningApps trace].
    split; [done |]. rewrite Ht, !count_app, Hsilent. unfold submissionEvents.
    destruct (buildSubmissionCommandArgs env updated) as [args [err |]];
      destruct (SubmissionByUser (Spec updated)); cbn [negb Datatypes.app];
      rewrite ?count_cons; cbn [isRunnerSubmit]; unfold count; cbn; lia.
  - rewrite (submitApp_abandoned env _ _ _ _ Hupd). cbn [snd].
    split; [done |]. rewrite Ht, count_app, Hsilent. lia.
Qed.

(** ** The registry over any run of the controller *)

Section RegistryInvariant.
Context {W : Type} (env : Env W).

Lemma wk_ret {A} (a : A) : keepsWellKeyed (W:=W) (mret a).
Proof. by intros s. Qed.

Lemma wk_bind {A B} (m : M W A) (f : A → M W B) :
  keepsWellKeyed m → (∀ a, keepsWellKeyed (f a)) → keepsWellKeyed (m ≫= f).
Proof.
  intros Hm Hf s Hs. unfold mbind, M_bind.
  specialize (Hm s Hs). destruct (m s) as [a s1]. by apply Hf.
Qed.

Lemma wk_emit e : keepsWellKeyed (W:=W) (emit e).
Proof. by intros s. Qed.

Lemma wk_registryLookup appID : keepsWellKeyed (W:=W) (registryLookup appID).
Proof. by intros s. Qed.

Lemma wk_registryInsert app :
  keepsWellKeyed (W:=W) (registryInsert (AppID (Status app)) app).
Proof.
  intros s Hs k a. cbn [registryInsert snd runningApps].
  rewrite lookup_insert. case_decide as Hk.
  - intros [= <-]. exact Hk.
  - apply Hs.
Qed.

Lemma wk_registryDelete appID : keepsWellKeyed (W:=W) (registryDelete appID).
Proof.
  intros s Hs k a. cbn [registryDelete snd runningApps].
  rewrite lookup_delete. case_decide; [done | apply Hs].
Qed.

Lemma wk_updater original toUpdate f :
  keepsWellKeyed (updateSparkApplicationWithRetries env original toUpdate f).
Proof.
  intros s Hs. unfold updateSparkApplicationWithRetries. by rewrite updateLoop_registry.
Qed.

Lemma wk_submitApp app resubmission : keepsWellKeyed (submitApp env app resubmission).
Proof.
  unfold submitApp. apply wk_bind; [apply wk_updater |].
  intros [updated |]; [| apply wk_ret].
  apply wk_bind; [apply wk_registryInsert | intros _].
  destruct (buildSubmissionCommandArgs env updated) as [args [err |]];
    (apply wk_bind; [first [apply wk_emit | apply wk_ret] | intros _]);
    destruct (negb _); first [apply wk_emit | apply wk_ret].
Qed.

Lemma wk_handleRestart app : keepsWellKeyed (handleRestart env app).
Proof.
  unfold handleRestart. repeat case_match; try apply wk_ret.
  apply wk_bind; [apply wk_emit | intros _; apply wk_submitApp].
Qed.

Lemma wk_processSingleDriverStateUpdate update :
  keepsWellKeyed (processSingleDriverStateUpdate env update).
Proof.
  unfold processSingleDriverStateUpdate.
  apply wk_bind; [apply wk_registryLookup |].
  intros [app |]; [| apply wk_ret].
  apply wk_bind; [apply wk_updater |].
  intros [u |]; (apply wk_bind; [| intros _; apply wk_ret]).
  - apply wk_registryInsert.
  - apply wk_ret.
Qed.

Lemma wk_step op : keepsWellKeyed (step env op).
Proof.
  destruct op as [app | app | update | update | update | update | app]; cbn [step].
  - unfold onAdd. apply wk_bind; [apply wk_emit | intros _; apply wk_submitApp].
  - unfold onDelete. apply wk_bind; [apply wk_emit | intros _; apply wk_registryDelete].
  - unfold processSingleAppStateUpdate.
    apply wk_bind; [apply wk_registryLookup |].
    intros [app |]; [| apply wk_ret].
    apply wk_bind; [apply wk_updater |].
    intros [u |]; [| apply wk_ret].
    apply wk_bind; [apply wk_registryInsert | intros _].
    case_bool_decide; [apply wk_emit | apply wk_ret].
  - apply wk_bind; [apply wk_processSingleDriverStateUpdate | intros _; apply wk_ret].
  - unfold driverStateStep.
    apply wk_bind; [apply wk_processSingleDriverStateUpdate |].
    intros [u |]; [| apply wk_ret].
    destruct (isAppTerminated _); [| apply wk_ret].
    apply wk_bind; [apply wk_emit | intros _; apply wk_handleRestart].
  - unfold processSingleExecutorStateUpdate.
    apply wk_bind; [apply wk_registryLookup |].
    intros [app |]; [| apply wk_ret].
    apply wk_bind; [apply wk_updater |].
    intros [u |]; [apply wk_registryInsert | apply wk_ret].
  - apply wk_handleRestart.
Qed.

(** the three consumers are runs of their loop bodies *)
Lemma processAppStateUpdates_run channel :
  processAppStateUpdates env channel = run env (map OpAppState channel).
Proof. induction channel as [|u us IH]; [done |]. cbn. by rewrite IH. Qed.

Lemma processDriverStateUpdates_run channel :
  processDriverStateUpdates env channel = run env (map OpDriverLoop channel).
Proof. induction channel as [|u us IH]; [done |]. cbn. by rewrite IH. Qed.

Lemma processExecutorStateUpdates_run channel :
  processExecutorStateUpdates env channel = run env (map OpExecutorState channel).
Proof. induction channel as [|u us IH]; [done |]. cbn. by rewrite IH. Qed.

Lemma keeps_dom {A} (m : M W A) (s : CState W) :
  (∀ k, keeps k m) → dom (runningApps s) ⊆ dom (runningApps (m s).2).
Proof.
  intros Hm k Hk. apply elem_of_dom. apply Hm. by apply elem_of_dom.
Qed.

(** ** Submissions handed to the runner *)

Lemma count_nil p : count p [] = 0.
Proof. reflexivity. Qed.

Lemma sub_ret {A} (a : A) n : submitsAtMost (W:=W) n (mret a).
Proof. intros s. cbn. lia. Qed.

Lemma sub_bind {A B} n1 n2 (m : M W A) (f : A → M W B) :
  submitsAtMost n1 m → (∀ a, submitsAtMost n2 (f a)) → submitsAtMost (n1 + n2) (m ≫= f).
Proof.
  intros Hm Hf s. unfold mbind, M_bind.
  specialize (Hm s). destruct (m s) as [a s1]. specialize (Hf a s1). cbn [snd] in Hm. lia.
Qed.

Lemma sub_weaken {A} n1 n2 (m : M W A) :
  (n1 ≤ n2)%nat → submitsAtMost n1 m → submitsAtMost n2 m.
Proof. intros Hle Hm s. specialize (Hm s). lia. Qed.

Lemma sub_emit e : isRunnerSubmit e = false → submitsAtMost (W:=W) 0 (emit e).
Proof.
  intros He s. cbn [emit snd trace]. rewrite count_app, count_cons, He, count_nil. lia.
Qed.

Lemma sub_registry_silent {A} (m : M W A) :
  (∀ s, trace (m s).2 = trace s) → submitsAtMost 0 m.
Proof. intros Hm s. rewrite Hm. lia. Qed.

Lemma sub_updater original toUpdate f :
  submitsAtMost 0 (updateSparkApplicationWithRetries env original toUpdate f).
Proof.
  intros s.
  destruct (updateLoop_frame env maximumUpdateRetries original f toUpdate s)
    as [_ (t & Ht & Hall)].
  unfold updateSparkApplicationWithRetries. rewrite Ht, count_app.
  rewrite (count_updater_events isRunnerSubmit t); [lia | by intros [] | done].
Qed.

Lemma sub_submitApp app resubmission : submitsAtMost 1 (submitApp env app resubmission).
Proof.
  intros s.
  pose proof (sub_updater app app (submitUpdateFunc env resubmission) s) as Hupd.
  unfold submitApp, mbind, M_bind, mret, M_ret.
  destruct (updateSparkApplicationWithRetries env app app
              (submitUpdateFunc env resubmission) s) as [[updated |] s1];
    cbn [snd] in Hupd |- *; [| lia].
  unfold registryInsert, emit.
  destruct (buildSubmissionCommandArgs env updated) as [args [err |]];
    destruct (negb _); cbn [snd trace];
    rewrite ?count_app, ?count_cons, ?count_nil; cbn [isRunnerSubmit]; lia.
Qed.

Lemma sub_handleRestart app : submitsAtMost 1 (handleRestart env app).
Proof.
  unfold handleRestart. repeat case_match; try apply sub_ret.
  apply (sub_bind 0 1); [by apply sub_emit | intros _; apply sub_submitApp].
Qed.

Lemma sub_processSingleDriverStateUpdate update :
  submitsAtMost 0 (processSingleDriverStateUpdate env update).
Proof.
  unfold processSingleDriverStateUpdate.
  apply (sub_bind 0 0); [by apply sub_registry_silent |].
  intros [app |]; [| apply sub_ret].
  apply (sub_bind 0 0); [apply sub_updater |].
  intros [u |]; (apply (sub_bind 0 0); [| intros _; apply sub_ret]).
  - by apply sub_registry_silent.
  - apply sub_ret.
Qed.

End RegistryInvariant.

(** X6.  Whatever the operations and whatever the store answers, every entry
    of the registry stays filed under the appID carried by its own status, so
    a delete notification carrying the record held by the registry always
    finds it. *)
Theorem registry_stays_well_keyed {W} (env : Env W) (ops : list Op) (s : CState W) :
  wellKeyed (runningApps s) →
  wellKeyed (runningApps (run env ops s).2)
  ∧ ∀ k app, runningApps (run env ops s).2 !! k = Some app →
             runningApps (onDelete app (run env ops s).2).2 !! k = None.
Proof.
  intros Hs.
  assert (Hrun : wellKeyed (runningApps (run env ops s).2)).
  { revert s Hs. induction ops as [|op ops IH]; intros s Hs; [done |].
    cbn [run]. apply (wk_bind (step env op) (λ _, run env ops)); [apply wk_step | | done].
    intros _ s1 Hs1. by apply IH. }
  split; [exact Hrun |].
  intros k app Hk. unfold onDelete, registryDelete, emit, mbind, M_bind.
  cbn [snd runningApps]. rewrite (Hrun k app Hk). apply lookup_delete_eq.
Qed.

Lemma registry_stays_well_keyed_witness :
  let s := (run (acceptEnv buildOk)
              [OpAdd (mkApp "pi" "default" "uid-1" "7" (mkSpec Always false) zeroStatus);
               OpDriverLoop (driverStateUpdate.mk "pi-15" "pi-driver" "" PodSucceeded);
               OpExecutorState (executorStateUpdate.mk "pi-15" "pi-exec-1" "1"
                                  ExecutorCompletedState)]
              (start ∅)).2 in
  wellKeyed (runningApps s)
  ∧ ∀ k app, runningApps s !! k = Some app → runningApps (onDelete app s).2 !! k = None.
Proof.
  cbv zeta. apply (registry_stays_well_keyed (acceptEnv buildOk)).
  intros k app Hk. cbn in Hk. by rewrite lookup_empty in Hk.
Defined.

(** X7.  None of the three consumers ever takes an entry out of the registry,
    whatever arrives on its channel: the set of registered appIDs can only
    grow under [processAppStateUpdates], [processDriverStateUpdates] (restarts
    included) and [processExecutorStateUpdates]. *)
Theorem consumers_never_unregister {W} (env : Env W) (s : CState W)
    (outcomes : list appStateUpdate.t) (drivers : list driverStateUpdate.t)
    (workers : list executorStateUpdate.t) :
  dom (runningApps s) ⊆ dom (runningApps (processAppStateUpdates env outcomes s).2)
  ∧ dom (runningApps s) ⊆ dom (runningApps (processDriverStateUpdates env drivers s).2)
  ∧ dom (runningApps s) ⊆ dom (runningApps (processExecutorStateUpdates env workers s).2).
Proof.
  rewrite processAppStateUpdates_run, processDriverStateUpdates_run,
    processExecutorStateUpdates_run.
  split; [| split]; apply keeps_dom; intros k; apply keeps_run; intros deleted Hin;
    apply list_elem_of_fmap in Hin as (u & Heq & _); discriminate Heq.
Qed.

(** X8.  One operation hands the runner at most one submission, and the
    operations that are not a create notification, a restart or a driver turn
    hand it none: a delete notification, a submission outcome, a worker event
    and [processSingleDriverStateUpdate] on its own never submit.  A run of
    operations therefore submits at most once per operation. *)
Theorem submissions_are_bounded {W} (env : Env W) (ops : list Op) (s : CState W) :
  (∀ op, submitsAtMost 1 (step env op))
  ∧ (∀ deleted, submitsAtMost 0 (step env (OpDelete deleted)))
  ∧ (∀ update, submitsAtMost 0 (step env (OpAppState update)))
  ∧ (∀ update, submitsAtMost 0 (step env (OpDriverState update)))
  ∧ (∀ update, submitsAtMost 0 (step env (OpExecutorState update)))
  ∧ (count isRunnerSubmit (trace (run env ops s).2)
     ≤ count isRunnerSubmit (trace s) + length ops)%nat.
Proof.
  assert (Hdel : ∀ deleted, submitsAtMost 0 (step env (OpDelete deleted))).
  { intros deleted. cbn [step]. unfold onDelete.
    apply (sub_bind 0 0); [by apply sub_emit | intros _; by apply sub_registry_silent]. }
  assert (Happ : ∀ update, submitsAtMost 0 (step env (OpAppState update))).
  { intros update. cbn [step]. unfold processSingleAppStateUpdate.
    apply (sub_bind 0 0); [by apply sub_registry_silent |].
    intros [app |]; [| apply sub_ret].
    apply (sub_bind 0 0); [apply sub_updater |].
    intros [u |]; [| apply sub_ret].
    apply (sub_bind 0 0); [by apply sub_registry_silent | intros _].
    case_bool_decide; [by apply sub_emit | apply sub_ret]. }
  assert (Hdrv : ∀ update, submitsAtMost 0 (step env (OpDriverState update))).
  { intros update. cbn [step].
    apply (sub_bind 0 0); [apply sub_processSingleDriverStateUpdate | intros _; apply sub_ret]. }
  assert (Hexe : ∀ update, submitsAtMost 0 (step env (OpExecutorState update))).
  { intros update. cbn [step]. unfold processSingleExecutorStateUpdate.
    apply (sub_bind 0 0); [by apply sub_registry_silent |].
    intros [app |]; [| apply sub_ret].
    apply (sub_bind 0 0); [apply sub_updater |].
    intros [u |]; [by apply sub_registry_silent | apply sub_ret]. }
  assert (Hstep : ∀ op, submitsAtMost 1 (step env op)).
  { intros [app | app | update | update | update | update | app].
    - cbn [step]. unfold onAdd.
      apply (sub_bind 0 1); [by apply sub_emit | intros _; apply sub_submitApp].
    - apply (sub_weaken 0 1); [lia | apply Hdel].
    - apply (sub_weaken 0 1); [lia | apply Happ].
    - apply (sub_weaken 0 1); [lia | apply Hdrv].
    - cbn [step]. unfold driverStateStep.
      apply (sub_bind 0 1); [apply sub_processSingleDriverStateUpdate |].
      intros [u |]; [| apply sub_ret].
      destruct (isAppTerminated _); [| apply sub_ret].
      apply (sub_bind 0 1); [by apply sub_emit | intros _; apply sub_handleRestart].
    - apply (sub_weaken 0 1); [lia | apply Hexe].
    - cbn [step]. apply sub_handleRestart. }
  repeat split; try done.
  revert s. induction ops as [|op ops IH]; intros s; [cbn; lia |].
  cbn [run length]. unfold mbind, M_bind.
  specialize (Hstep op s). destruct (step env op s) as [[] s1]. cbn [snd] in Hstep.
  specialize (IH s1). lia.
Qed.

(** ** The node directory *)

Lemma firstExternalIP_none addresses :
  (∀ a, a ∈ addresses → Type_ a ≠ NodeExternalIP) → firstExternalIP addresses = "".
Proof.
  induction addresses as [|a rest IH]; intros Hall; [done |].
  cbn [firstExternalIP]. rewrite bool_decide_eq_false_2 by (apply Hall; by left).
  apply IH. intros a' Hin. apply Hall. by right.
Qed.

Lemma firstExternalIP_first before x after :
  (∀ a, a ∈ before → Type_ a ≠ NodeExternalIP) →
  Type_ x = NodeExternalIP →
  firstExternalIP (before ++ x :: after) = Address x.
Proof.
  induction before as [|a rest IH]; intros Hall Hx; cbn [firstExternalIP app].
  - by rewrite bool_decide_eq_true_2.
  - rewrite bool_decide_eq_false_2 by (apply Hall; by left).
    apply IH; [| done]. intros a' Hin. apply Hall. by right.
Qed.

(** X9.  [getNodeExternalIP] answers with the address of the first entry of
    external type in the node's address list, skipping every entry of another
    type before it; it answers the empty string, without failing, when the
    node has no entry of external type, and also when the lookup of the node
    fails, which it logs.  In every case it makes the one lookup and nothing
    else: the world is as that lookup left it. *)
Theorem getNodeExternalIP_first_external {W} (env : Env W) (nodeName : string) (w : W) :
  (∀ before x after w1,
     nodesGet env nodeName w = (Ok (mkNode (before ++ x :: after)), w1) →
     (∀ a, a ∈ before → Type_ a ≠ NodeExternalIP) →
     Type_ x = NodeExternalIP →
     getNodeExternalIP env nodeName w = (Address x, w1, []))
  ∧ (∀ addresses w1,
       nodesGet env nodeName w = (Ok (mkNode addresses), w1) →
       (∀ a, a ∈ addresses → Type_ a ≠ NodeExternalIP) →
       getNodeExternalIP env nodeName w = ("", w1, []))
  ∧ (∀ e w1,
       nodesGet env nodeName w = (Err e, w1) →
       getNodeExternalIP env nodeName w = ("", w1, [FailedToGetNode nodeName])).
Proof.
  unfold getNodeExternalIP. split; [| split].
  - intros before x after w1 Hget Hbefore Hx. rewrite Hget. cbn [Addresses].
    by rewrite firstExternalIP_first.
  - intros addresses w1 Hget Hnone. rewrite Hget. cbn [Addresses].
    by rewrite firstExternalIP_none.
  - intros e w1 Hget. by rewrite Hget.
Qed.

Lemma getNodeExternalIP_first_external_witness :
  getNodeExternalIP movingEnv "node-1" 0 = ("34.1.2.3", 1, [])
  ∧ getNodeExternalIP
      (scripted (λ a _, Ok a) (λ _ _, Err NotFound)
         (λ _, Ok (mkNode [mkNodeAddress NodeInternalIP "192.168.0.7";
                           mkNodeAddress "Hostname" "node-1"]))
         buildOk) "node-1" 0 = ("", 1, [])
  ∧ getNodeExternalIP conflictEnv "node-1" 0 = ("", 1, [FailedToGetNode "node-1"]).
Proof.
  split; [| split].
  - apply (proj1 (getNodeExternalIP_first_external movingEnv "node-1" 0)
             [mkNodeAddress NodeInternalIP "192.168.0.7"]
             (mkNodeAddress NodeExternalIP "34.1.2.3") []); [reflexivity | | reflexivity].
    intros a Hin. apply elem_of_cons in Hin as [-> | Hin]; [discriminate |].
    by apply elem_of_nil in Hin.
  - apply (proj1 (proj2 (getNodeExternalIP_first_external _ "node-1" 0))
             [mkNodeAddress NodeInternalIP "192.168.0.7";
              mkNodeAddress "Hostname" "node-1"]); [reflexivity |].
    intros a Hin.
    repeat (apply elem_of_cons in Hin as [-> | Hin]; [discriminate |]).
    by apply elem_of_nil in Hin.
  - apply (proj2 (proj2 (getNodeExternalIP_first_external conflictEnv "node-1" 0))
             NotFound).
    reflexivity.
Defined.

(** ** What the mutations of the reducers leave alone *)

Section ReducerFrames.
Context {W : Type} (env : Env W).

Lemma withStatus_self st (a : SparkApplication) : Status a = st → withStatus st a = a.
Proof. intros <-. by destruct a. Qed.

Lemma executorUpdateFunc_frame update a (w : W) :
  setExecutorState (ExecutorState (Status a)) (executorUpdateFunc update a w).1.1 = a
  ∧ (executorUpdateFunc update a w).1.2 = w.
Proof.
  unfold executorUpdateFunc, mret, K_ret.
  destruct a as [? ? ? ? ? [? ? ? ? ? [m |]]]; cbn; by case_bool_decide.
Qed.

Lemma appStateUpdateFunc_frame update a (w : W) :
  setAppState (AppState (Status a))
    (setSubmissionTime (SubmissionTime (Status a))
       (setCompletionTime (CompletionTime (Status a)) (appStateUpdateFunc update a w).1.1))
  = a
  ∧ (appStateUpdateFunc update a w).1.2 = w.
Proof.
  unfold appStateUpdateFunc, mret, K_ret.
  destruct a as [? ? ? ? ? [? ? ? ? [st msg] ?]]; cbn.
  by repeat case_match.
Qed.

Lemma driverUpdateFunc_frame update a (w : W) :
  setState (appStateOf a)
    (setWebUIAddress (WebUIAddress (DriverInfo (Status a)))
       (setPodName (PodName (DriverInfo (Status a))) (driverUpdateFunc env update a w).1.1))
  = a.
Proof.
  rewrite driverUpdateFunc_fields. unfold driverAppState.
  destruct a as [? ? ? ? ? [? ? ? [? ? ?] [st msg] ?]].
  by destruct (isAppTerminated _).
Qed.

End ReducerFrames.

(** X10.  Each reducer's mutation writes to its own fields only.  The worker
    mutation changes nothing but [executorState]; the submission-outcome
    mutation nothing but [appState] and the two timestamps; the driver
    mutation nothing but the pod name, the UI address and [appState.state].
    None of them changes the name, namespace, uid, spec or appID of the
    record.  The first two do not reach the world at all, and the driver
    mutation reaches it through its one node lookup, which it makes only when
    the event names a node. *)
Theorem reducers_write_their_own_fields {W} (env : Env W) (app : SparkApplication) (w : W) :
  (∀ update,
     setExecutorState (ExecutorState (Status app)) (executorUpdateFunc update app w).1.1 = app
     ∧ (executorUpdateFunc update app w).1.2 = w)
  ∧ (∀ update,
       setAppState (AppState (Status app))
         (setSubmissionTime (SubmissionTime (Status app))
            (setCompletionTime (CompletionTime (Status app))
               (appStateUpdateFunc update app w).1.1)) = app
       ∧ (appStateUpdateFunc update app w).1.2 = w)
  ∧ (∀ update,
       setState (appStateOf app)
         (setWebUIAddress (WebUIAddress (DriverInfo (Status app)))
            (setPodName (PodName (DriverInfo (Status app)))
               (driverUpdateFunc env update app w).1.1)) = app
       ∧ (driverUpdateFunc env update app w).1.2
         = if bool_decide (driverStateUpdate.nodeName update ≠ "")
           then (nodesGet env (driverStateUpdate.nodeName update) w).2
           else w).
Proof.
  split; [| split]; intros update.
  - apply executorUpdateFunc_frame.
  - apply appStateUpdateFunc_frame.
  - split; [apply driverUpdateFunc_frame | apply driverUpdateFunc_world].
Qed.

(** ** Order of events from different channels *)

Section Commutation.
Context {W : Type} (env : Env W).

Lemma appStateUpdateFunc_fields update a (w : W) :
  (appStateUpdateFunc update a w).1.1
  = withStatus
      (mkStatus (AppID (Status a))
         (outcomeTime (appStateUpdate.submissionTime update) (SubmissionTime (Status a)))
         (outcomeTime (appStateUpdate.completionTime update) (CompletionTime (Status a)))
         (DriverInfo (Status a))
         (outcomeAppState update (AppState (Status a)))
         (ExecutorState (Status a))) a.
Proof.
  unfold appStateUpdateFunc, outcomeAppState, outcomeTime, appStateOf, mret, K_ret.
  destruct a as [? ? ? ? ? [? ? ? ? [st msg] ?]]; cbn [Status AppState State fst].
  destruct (negb (isAppTerminated st)
            || bool_decide (appStateUpdate.state update = FailedSubmissionState));
    destruct (negb (IsZero (appStateUpdate.submissionTime update)));
    destruct (negb (IsZero (appStateUpdate.completionTime update))); reflexivity.
Qed.

Lemma executorUpdateFunc_fields update a (w : W) :
  (executorUpdateFunc update a w).1.1
  = withStatus
      (mkStatus (AppID (Status a)) (SubmissionTime (Status a)) (CompletionTime (Status a))
         (DriverInfo (Status a)) (AppState (Status a))
         (workerExecutors update (ExecutorState (Status a)))) a.
Proof.
  unfold executorUpdateFunc, workerExecutors, mret, K_ret.
  destruct a as [? ? ? ? ? [? ? ? ? ? [m |]]]; cbn [Status ExecutorState fst default];
    destruct (bool_decide (executorStateUpdate.state update ≠ ExecutorPendingState));
    reflexivity.
Qed.

Lemma executor_appState_commute ue ua a (w : W) :
  (executorUpdateFunc ue (appStateUpdateFunc ua a w).1.1 w).1.1
  = (appStateUpdateFunc ua (executorUpdateFunc ue a w).1.1 w).1.1.
Proof.
  by repeat first [rewrite executorUpdateFunc_fields | rewrite appStateUpdateFunc_fields].
Qed.

Lemma executor_driver_commute ue ud a (w : W) :
  (executorUpdateFunc ue (driverUpdateFunc env ud a w).1.1 w).1.1
  = (driverUpdateFunc env ud (executorUpdateFunc ue a w).1.1 w).1.1.
Proof.
  by repeat first [rewrite executorUpdateFunc_fields | rewrite driverUpdateFunc_fields].
Qed.

Lemma driver_outcome_appState ud ua (old : ApplicationState) :
  appStateUpdate.state ua ≠ FailedSubmissionState →
  State (outcomeAppState ua (driverAppState ud old))
  = State (driverAppState ud (outcomeAppState ua old)).
Proof.
  intros Hfs. unfold outcomeAppState, driverAppState.
  rewrite (bool_decide_eq_false_2 _ Hfs), !orb_false_r.
  destruct (isAppTerminated (driverPodPhaseToApplicationState
                               (driverStateUpdate.podPhase ud))) eqn:Hd;
    destruct (isAppTerminated (State old)) eqn:Hold; cbn [State negb];
    rewrite ?Hd, ?Hold; reflexivity.
Qed.

Lemma driver_appState_commute ud ua a (w : W) :
  appStateUpdate.state ua ≠ FailedSubmissionState →
  setErrorMessage ""
    (appStateUpdateFunc ua (driverUpdateFunc env ud a w).1.1 w).1.1
  = setErrorMessage ""
      (driverUpdateFunc env ud (appStateUpdateFunc ua a w).1.1 w).1.1.
Proof.
  intros Hfs.
  repeat first [rewrite appStateUpdateFunc_fields | rewrite driverUpdateFunc_fields].
  unfold setErrorMessage, setAppState, withStatus. cbn [Status AppState Name Namespace UID
    ResourceVersion Spec AppID SubmissionTime CompletionTime DriverInfo ExecutorState].
  by rewrite (driver_outcome_appState ud ua (AppState (Status a)) Hfs).
Qed.

End Commutation.

(** X11.  The worker mutation commutes with the submission-outcome mutation
    and with the driver mutation: whichever of two such events is folded in
    first, the record is the same.  A driver event and a submission outcome
    whose state is not FailedSubmission give, in either order, the same
    record up to the error message, and in particular the same
    [appState.state]. *)
Theorem events_of_different_channels_commute {W} (env : Env W) (app : SparkApplication)
    (w : W) :
  (∀ worker outcome,
     (executorUpdateFunc worker (appStateUpdateFunc outcome app w).1.1 w).1.1
     = (appStateUpdateFunc outcome (executorUpdateFunc worker app w).1.1 w).1.1)
  ∧ (∀ worker driver,
       (executorUpdateFunc worker (driverUpdateFunc env driver app w).1.1 w).1.1
       = (driverUpdateFunc env driver (executorUpdateFunc worker app w).1.1 w).1.1)
  ∧ (∀ driver outcome,
       appStateUpdate.state outcome ≠ FailedSubmissionState →
       setErrorMessage ""
         (appStateUpdateFunc outcome (driverUpdateFunc env driver app w).1.1 w).1.1
       = setErrorMessage ""
           (driverUpdateFunc env driver (appStateUpdateFunc outcome app w).1.1 w).1.1
       ∧ appStateOf (appStateUpdateFunc outcome (driverUpdateFunc env driver app w).1.1 w).1.1
         = appStateOf
             (driverUpdateFunc env driver (appStateUpdateFunc outcome app w).1.1 w).1.1).
Proof.
  split; [| split].
  - intros worker outcome. apply executor_appState_commute.
  - intros worker driver. apply executor_driver_commute.
  - intros driver outcome Hfs.
    pose proof (driver_appState_commute env driver outcome app w Hfs) as Heq.
    split; [exact Heq |].
    apply (f_equal appStateOf) in Heq. exact Heq.
Qed.

Lemma events_of_different_channels_commute_witness :
  let app := pi Never SubmittedState None in
  appStateOf (appStateUpdateFunc runningUpdate
                (driverUpdateFunc conflictEnv succeededUpdate app 0).1.1 0).1.1
  = appStateOf (driverUpdateFunc conflictEnv succeededUpdate
                  (appStateUpdateFunc runningUpdate app 0).1.1 0).1.1.
Proof.
  cbv zeta.
  apply (proj2 (proj2 (events_of_different_channels_commute conflictEnv
                         (pi Never SubmittedState None) 0)) succeededUpdate runningUpdate).
  discriminate.
Defined.

(** With FailedSubmission the order shows: the outcome overrides a Completed
    driver, and a Completed driver overrides the outcome. *)
Example failed_submission_order_shows :
  let app := pi Never SubmittedState None in
  let failed := appStateUpdate.mk "pi-100" zeroTime zeroTime FailedSubmissionState "exit 1" in
  appStateOf (appStateUpdateFunc failed
                (driverUpdateFunc conflictEnv succeededUpdate app 0).1.1 0).1.1
  = FailedSubmissionState
  ∧ appStateOf (driverUpdateFunc conflictEnv succeededUpdate
                  (appStateUpdateFunc failed app 0).1.1 0).1.1
    = CompletedState.
Proof. split; reflexivity. Qed.

(** X12.  A driver event whose mutation leaves the status of the tracked
    record as it is ends the turn of [processDriverStateUpdates] after the
    mutation: nothing is written, no termination event is recorded and
    [handleRestart] is not run, even if the record is terminated and its
    policy asks for a restart.  A terminal phase reported twice restarts the
    application once. *)
Theorem driver_event_without_effect_restarts_nothing {W} (env : Env W) update app
    (s : CState W) m w1 logs :
  runningApps s !! driverStateUpdate.appID update = Some app →
  driverUpdateFunc env update app (world s) = (m, w1, logs) →
  Status m = Status app →
  driverStateStep env update s
  = (tt, mkCState w1 (runningApps s) (trace s ++ CallUpdateFunc :: map ErrorLog logs)).
Proof.
  intros Hreg Hf Heq.
  unfold driverStateStep, processSingleDriverStateUpdate, registryLookup,
    mbind, mret, M_bind, M_ret.
  rewrite Hreg. unfold updateSparkApplicationWithRetries, maximumUpdateRetries.
  by rewrite (updateLoop_unchanged env 2 app app (driverUpdateFunc env update) s m w1 logs
                Hf (eq_sym Heq)).
Qed.

Lemma driver_event_without_effect_restarts_nothing_witness :
  driverStateStep (acceptEnv buildOk) succeededUpdate (start {["pi-100" := completedPi]})
  = (tt, mkCState 0 {["pi-100" := completedPi]} [CallUpdateFunc]).
Proof.
  exact (driver_event_without_effect_restarts_nothing (acceptEnv buildOk) succeededUpdate
           completedPi (start {["pi-100" := completedPi]}) completedPi 0 []
           eq_refl eq_refl eq_refl).
Defined.

(** X13.  A delete notification carrying the record that [submitApp]
    registered under a fresh appID puts the registry back as it was before
    the submission; one carrying a record with another appID, such as the
    object as it was before the submission, leaves the registered entry in
    place; and one for an appID the registry does not hold changes nothing in
    it. *)
Theorem delete_undoes_registration {W} (env : Env W) app resubmission (s : CState W)
    updated s1 :
  updateSparkApplicationWithRetries env app app (submitUpdateFunc env resubmission) s
  = (Some updated, s1) →
  (runningApps s !! AppID (Status updated) = None →
   runningApps (onDelete updated (submitApp env app resubmission s).2).2 = runningApps s)
  ∧ (∀ stale, AppID (Status stale) ≠ AppID (Status updated) →
       runningApps (onDelete stale (submitApp env app resubmission s).2).2
         !! AppID (Status updated) = Some updated)
  ∧ (∀ absent (s0 : CState W), runningApps s0 !! AppID (Status absent) = None →
       runningApps (onDelete absent s0).2 = runningApps s0).
Proof.
  intros Hupd. rewrite (submitApp_persisted env _ _ _ _ _ Hupd).
  unfold onDelete, registryDelete, emit, mbind, M_bind. cbn [snd runningApps].
  split; [| split].
  - intros Hfresh. by rewrite delete_insert_eq, delete_id.
  - intros stale Hne. by rewrite lookup_delete_ne, lookup_insert_eq.
  - intros absent s0 Habsent. by rewrite delete_id.
Qed.

Lemma delete_undoes_registration_witness :
  let created := mkApp "pi" "default" "uid-1" "7" (mkSpec Never false) zeroStatus in
  let updated := setState NewState (setAppID "pi-15" created) in
  let s' := (submitApp (acceptEnv buildOk) created false (start ∅)).2 in
  runningApps (onDelete updated s').2 = ∅
  ∧ runningApps (onDelete created s').2 !! "pi-15" = Some updated
  ∧ runningApps (onDelete created (start ∅)).2 = ∅.
Proof.
  cbv zeta.
  destruct (delete_undoes_registration (acceptEnv buildOk)
              (mkApp "pi" "default" "uid-1" "7" (mkSpec Never false) zeroStatus) false
              (start ∅)
              (setState NewState
                 (setAppID "pi-15"
                    (mkApp "pi" "default" "uid-1" "7" (mkSpec Never false) zeroStatus)))
              (updateSparkApplicationWithRetries (acceptEnv buildOk)
                 (mkApp "pi" "default" "uid-1" "7" (mkSpec Never false) zeroStatus)
                 (mkApp "pi" "default" "uid-1" "7" (mkSpec Never false) zeroStatus)
                 (submitUpdateFunc (acceptEnv buildOk) false) (start ∅)).2 eq_refl)
    as (Hundo & Hstale & Habsent).
  split; [by apply Hundo | split].
  - apply (Hstale (mkApp "pi" "default" "uid-1" "7" (mkSpec Never false) zeroStatus)).
    discriminate.
  - by apply (Habsent _ (start ∅)).
Defined.

(** ** Sequences of submission outcomes and worker events *)

Section Sequences.
Context {W : Type} (w : W).

Lemma applyAppStateUpdates_snoc updates update app :
  applyAppStateUpdates w (updates ++ [update]) app
  = (appStateUpdateFunc update (applyAppStateUpdates w updates app) w).1.1.
Proof. unfold applyAppStateUpdates. by rewrite foldl_app. Qed.

Lemma appStateUpdateFunc_submissionTime update app :
  SubmissionTime (Status (appStateUpdateFunc update app w).1.1)
  = if IsZero (appStateUpdate.submissionTime update)
    then SubmissionTime (Status app) else appStateUpdate.submissionTime update.
Proof.
  unfold appStateUpdateFunc. destruct app as [? ? ? ? ? [? ? ? ? [st msg] ?]]; cbn.
  by repeat case_match.
Qed.

Lemma appStateUpdateFunc_completionTime update app :
  CompletionTime (Status (appStateUpdateFunc update app w).1.1)
  = if IsZero (appStateUpdate.completionTime update)
    then CompletionTime (Status app) else appStateUpdate.completionTime update.
Proof.
  unfold appStateUpdateFunc. destruct app as [? ? ? ? ? [? ? ? ? [st msg] ?]]; cbn.
  by repeat case_match.
Qed.

Lemma applyAppStateUpdates_zero_times updates app :
  (∀ u, u ∈ updates → IsZero (appStateUpdate.submissionTime u) = true) →
  SubmissionTime (Status (applyAppStateUpdates w updates app)) = SubmissionTime (Status app).
Proof.
  induction updates as [|u us IH] using rev_ind; intros Hzero; [done |].
  rewrite applyAppStateUpdates_snoc, appStateUpdateFunc_submissionTime.
  rewrite (Hzero u) by (apply elem_of_app; right; by left).
  apply IH. intros u' Hin. apply Hzero. apply elem_of_app. by left.
Qed.

Lemma applyAppStateUpdates_zero_completions updates app :
  (∀ u, u ∈ updates → IsZero (appStateUpdate.completionTime u) = true) →
  CompletionTime (Status (applyAppStateUpdates w updates app)) = CompletionTime (Status app).
Proof.
  induction updates as [|u us IH] using rev_ind; intros Hzero; [done |].
  rewrite applyAppStateUpdates_snoc, appStateUpdateFunc_completionTime.
  rewrite (Hzero u) by (apply elem_of_app; right; by left).
  apply IH. intros u' Hin. apply Hzero. apply elem_of_app. by left.
Qed.

Lemma applyAppStateUpdates_app before after app :
  applyAppStateUpdates w (before ++ after) app
  = applyAppStateUpdates w after (applyAppStateUpdates w before app).
Proof. unfold applyAppStateUpdates. by rewrite foldl_app. Qed.

Lemma applyAppStateUpdates_terminated updates app :
  isAppTerminated (appStateOf app) = true →
  (∀ u, u ∈ updates → appStateUpdate.state u ≠ FailedSubmissionState) →
  AppState (Status (applyAppStateUpdates w updates app)) = AppState (Status app).
Proof.
  intros Hterm. induction updates as [|u us IH] using rev_ind; intros Hfs; [done |].
  rewrite applyAppStateUpdates_snoc.
  assert (IH' : AppState (Status (applyAppStateUpdates w us app)) = AppState (Status app)).
  { apply IH. intros u' Hin. apply Hfs. apply elem_of_app. by left. }
  assert (Hfs' : appStateUpdate.state u ≠ FailedSubmissionState).
  { apply Hfs. apply elem_of_app. right. by left. }
  rewrite <- IH'. unfold appStateUpdateFunc, appStateOf in *.
  rewrite IH', Hterm, (bool_decide_eq_false_2 _ Hfs'). cbn [negb orb].
  destruct (applyAppStateUpdates w us app) as [? ? ? ? ? [? ? ? ? [st msg] ?]].
  cbn in *. by repeat case_match.
Qed.

Lemma applyExecutorUpdates_appState updates app :
  AppState (Status (applyExecutorUpdates w updates app)) = AppState (Status app).
Proof.
  induction updates as [|u us IH] using rev_ind; [done |].
  unfold applyExecutorUpdates in *. rewrite foldl_app. cbn [foldl].
  by rewrite executorUpdateFunc_appState.
Qed.

End Sequences.

(** X14.  Over any sequence of submission outcomes folded into a record, a
    zero timestamp never clears the one the record has, and a non-zero one
    always replaces it: the submission time (and likewise the completion
    time) ends up as the last non-zero one that arrived, or as it was if none
    did. *)
Theorem timestamps_follow_the_last_nonzero {W} (w : W) (app : SparkApplication) :
  (∀ updates,
     (∀ u, u ∈ updates → IsZero (appStateUpdate.submissionTime u) = true) →
     SubmissionTime (Status (applyAppStateUpdates w updates app))
     = SubmissionTime (Status app))
  ∧ (∀ before u after,
       IsZero (appStateUpdate.submissionTime u) = false →
       (∀ u', u' ∈ after → IsZero (appStateUpdate.submissionTime u') = true) →
       SubmissionTime (Status (applyAppStateUpdates w (before ++ u :: after) app))
       = appStateUpdate.submissionTime u)
  ∧ (∀ updates,
       (∀ u, u ∈ updates → IsZero (appStateUpdate.completionTime u) = true) →
       CompletionTime (Status (applyAppStateUpdates w updates app))
       = CompletionTime (Status app))
  ∧ (∀ before u after,
       IsZero (appStateUpdate.completionTime u) = false →
       (∀ u', u' ∈ after → IsZero (appStateUpdate.completionTime u') = true) →
       CompletionTime (Status (applyAppStateUpdates w (before ++ u :: after) app))
       = appStateUpdate.completionTime u).
Proof.
  split; [| split; [| split]].
  - intros updates. apply applyAppStateUpdates_zero_times.
  - intros before u after Hu Hafter.
    rewrite (applyAppStateUpdates_app w before (u :: after)).
    change (u :: after) with ([u] ++ after).
    rewrite (applyAppStateUpdates_app w [u] after).
    rewrite applyAppStateUpdates_zero_times by done.
    unfold applyAppStateUpdates at 1. cbn [foldl].
    by rewrite appStateUpdateFunc_submissionTime, Hu.
  - intros updates. apply applyAppStateUpdates_zero_completions.
  - intros before u after Hu Hafter.
    rewrite (applyAppStateUpdates_app w before (u :: after)).
    change (u :: after) with ([u] ++ after).
    rewrite (applyAppStateUpdates_app w [u] after).
    rewrite applyAppStateUpdates_zero_completions by done.
    unfold applyAppStateUpdates at 1. cbn [foldl].
    by rewrite appStateUpdateFunc_completionTime, Hu.
Qed.

Lemma timestamps_follow_the_last_nonzero_witness :
  let app := pi Never NewState None in
  let at_ t := appStateUpdate.mk "pi-100" t zeroTime RunningState "" in
  SubmissionTime (Status (applyAppStateUpdates 0 [at_ zeroTime; at_ zeroTime] app)) = zeroTime
  ∧ SubmissionTime (Status (applyAppStateUpdates 0 ([at_ (utc 9)] ++ at_ (utc 5) :: [at_ zeroTime]) app))
    = utc 5.
Proof.
  cbv zeta.
  destruct (timestamps_follow_the_last_nonzero 0 (pi Never NewState None))
    as (Hzero & Hlast & _ & _).
  split.
  - apply (Hzero [appStateUpdate.mk "pi-100" zeroTime zeroTime RunningState "";
                  appStateUpdate.mk "pi-100" zeroTime zeroTime RunningState ""]).
    intros u Hin.
    repeat (apply elem_of_cons in Hin as [-> | Hin]; [reflexivity |]).
    by apply elem_of_nil in Hin.
  - apply (Hlast [appStateUpdate.mk "pi-100" (utc 9) zeroTime RunningState ""]
             (appStateUpdate.mk "pi-100" (utc 5) zeroTime RunningState "")
             [appStateUpdate.mk "pi-100" zeroTime zeroTime RunningState ""]); [reflexivity |].
    intros u Hin.
    repeat (apply elem_of_cons in Hin as [-> | Hin]; [reflexivity |]).
    by apply elem_of_nil in Hin.
Defined.

(** X15.  A record that is Completed or Failed keeps its whole [appState],
    state and error message, through any sequence of submission outcomes none
    of which is a FailedSubmission, and any record keeps it through any
    sequence of worker events. *)
Theorem terminated_record_survives_sequences {W} (w : W) (app : SparkApplication) :
  (isAppTerminated (appStateOf app) = true →
   ∀ outcomes,
     (∀ u, u ∈ outcomes → appStateUpdate.state u ≠ FailedSubmissionState) →
     AppState (Status (applyAppStateUpdates w outcomes app)) = AppState (Status app))
  ∧ (∀ workers,
       AppState (Status (applyExecutorUpdates w workers app)) = AppState (Status app)).
Proof.
  split.
  - intros Hterm outcomes. by apply applyAppStateUpdates_terminated.
  - intros workers. apply applyExecutorUpdates_appState.
Qed.

Lemma terminated_record_survives_sequences_witness :
  let app := pi Never FailedState None in
  AppState (Status (applyAppStateUpdates 0
                      [runningUpdate;
                       appStateUpdate.mk "pi-100" zeroTime (utc 7) CompletedState "done"] app))
  = mkApplicationState FailedState ""
  ∧ AppState (Status (applyExecutorUpdates 0 [runningExecutor; pendingUpdate] app))
    = mkApplicationState FailedState "".
Proof.
  cbv zeta.
  destruct (terminated_record_survives_sequences 0 (pi Never FailedState None))
    as [Houtcomes Hworkers].
  split; [| apply Hworkers].
  apply (Houtcomes eq_refl). intros u Hin.
  repeat (apply elem_of_cons in Hin as [-> | Hin]; [discriminate |]).
  by apply elem_of_nil in Hin.
Defined.

(** ** The reducers and the answer of the store *)

Section ReducerOutcome.
Context {W : Type} (env : Env W).

Lemma updater_registry original toUpdate f (s : CState W) :
  runningApps (updateSparkApplicationWithRetries env original toUpdate f s).2
  = runningApps s.
Proof. apply updateLoop_registry. Qed.

End ReducerOutcome.

(** X16.  One turn of [processDriverStateUpdates] for a tracked application
    acts on the record the updater returned: that record is registered under
    its appID, and, when its state is Completed or Failed, the termination
    event is recorded and [handleRestart] is run on it, whatever the phase of
    the event was.  When the updater returned nil the turn ends there, with
    the registry as it was. *)
Theorem driver_turn_acts_on_the_persisted_record {W} (env : Env W) update app
    (s : CState W) :
  runningApps s !! driverStateUpdate.appID update = Some app →
  driverStateStep env update s
  = match updateSparkApplicationWithRetries env app app (driverUpdateFunc env update) s with
    | (Some u, s1) =>
        if isAppTerminated (appStateOf u) then
          handleRestart env u
            (mkCState (world s1) (<[AppID (Status u) := u]> (runningApps s))
               (trace s1
                  ++ [RecorderEvent u "SparkApplicationTermination"
                        ("SparkApplication " +:+ Name u +:+ " terminated with state: "
                         +:+ showAppState (AppState (Status u)))]))
        else (tt, mkCState (world s1) (<[AppID (Status u) := u]> (runningApps s)) (trace s1))
    | (None, s1) => (tt, mkCState (world s1) (runningApps s) (trace s1))
    end.
Proof.
  intros Hreg.
  pose proof (updater_registry env app app (driverUpdateFunc env update) s) as Hframe.
  unfold driverStateStep, processSingleDriverStateUpdate, registryLookup,
    mbind, mret, M_bind, M_ret.
  rewrite Hreg.
  destruct (updateSparkApplicationWithRetries env app app (driverUpdateFunc env update) s)
    as [[u |] s1]; cbn [snd] in Hframe.
  - unfold registryInsert, emit. rewrite Hframe.
    by destruct (isAppTerminated (appStateOf u)).
  - rewrite <- Hframe. by destruct s1.
Qed.

Lemma driver_turn_acts_on_the_persisted_record_witness :
  let s := start {["pi-100" := pi Never RunningState None]} in
  let u := setState CompletedState (setPodName "pi-driver" (pi Never RunningState None)) in
  driverStateStep (acceptEnv buildOk) succeededUpdate s
  = (tt, mkCState 1 {["pi-100" := u]}
           [CallUpdateFunc; ClientUpdate "default" u;
            RecorderEvent u "SparkApplicationTermination"
              "SparkApplication pi terminated with state: {COMPLETED }"]).
Proof.
  cbv zeta.
  rewrite (driver_turn_acts_on_the_persisted_record (acceptEnv buildOk) succeededUpdate
             (pi Never RunningState None)
             (start {["pi-100" := pi Never RunningState None]})); [| reflexivity].
  vm_compute. reflexivity.
Defined.

(** X17.  The submission-outcome and worker reducers change the registry only
    when the updater returned a record, which they file under the appID that
    record carries; when it returned nil (nothing to write, or the write
    lost) the registry keeps the record it had.  The submission failure is
    recorded exactly when the returned record is in state FailedSubmission. *)
Theorem reducers_register_what_was_persisted {W} (env : Env W) (app : SparkApplication)
    (s : CState W) :
  (∀ update,
     runningApps s !! appStateUpdate.appID update = Some app →
     processSingleAppStateUpdate env update s
     = match updateSparkApplicationWithRetries env app app (appStateUpdateFunc update) s with
       | (Some u, s1) =>
           (tt, mkCState (world s1) (<[AppID (Status u) := u]> (runningApps s))
                  (trace s1
                     ++ if bool_decide (appStateOf u = FailedSubmissionState)
                        then [RecorderEvent u "SparkApplicationSubmissionFailure"
                                ("SparkApplication " +:+ Name u +:+ " failed submission")]
                        else []))
       | (None, s1) => (tt, mkCState (world s1) (runningApps s) (trace s1))
       end)
  ∧ (∀ update,
       runningApps s !! executorStateUpdate.appID update = Some app →
       processSingleExecutorStateUpdate env update s
       = match updateSparkApplicationWithRetries env app app (executorUpdateFunc update) s with
         | (Some u, s1) =>
             (tt, mkCState (world s1) (<[AppID (Status u) := u]> (runningApps s)) (trace s1))
         | (None, s1) => (tt, mkCState (world s1) (runningApps s) (trace s1))
         end).
Proof.
  split; intros update Hreg.
  - pose proof (updater_registry env app app (appStateUpdateFunc update) s) as Hframe.
    unfold processSingleAppStateUpdate, registryLookup, mbind, mret, M_bind, M_ret.
    rewrite Hreg.
    destruct (updateSparkApplicationWithRetries env app app (appStateUpdateFunc update) s)
      as [[u |] s1]; cbn [snd] in Hframe.
    + unfold registryInsert, emit. rewrite Hframe.
      case_bool_decide; cbn [snd fst world runningApps trace]; by rewrite ?app_nil_r.
    + rewrite <- Hframe. by destruct s1.
  - pose proof (updater_registry env app app (executorUpdateFunc update) s) as Hframe.
    unfold processSingleExecutorStateUpdate, registryLookup, mbind, mret, M_bind, M_ret.
    rewrite Hreg.
    destruct (updateSparkApplicationWithRetries env app app (executorUpdateFunc update) s)
      as [[u |] s1]; cbn [snd] in Hframe.
    + unfold registryInsert. by rewrite Hframe.
    + rewrite <- Hframe. by destruct s1.
Qed.

Lemma reducers_register_what_was_persisted_witness :
  let app := pi Never RunningState None in
  let s := start {["pi-100" := app]} in
  processSingleAppStateUpdate conflictEnv runningUpdate s
  = (tt, mkCState (world (updateSparkApplicationWithRetries conflictEnv app app
                            (appStateUpdateFunc runningUpdate) s).2)
           {["pi-100" := app]}
           (trace (updateSparkApplicationWithRetries conflictEnv app app
                     (appStateUpdateFunc runningUpdate) s).2))
  ∧ runningApps (processSingleExecutorStateUpdate (acceptEnv buildOk) runningExecutor s).2
    = {["pi-100" := setExecutorState (Some {["pi-exec-1" := ExecutorRunningState]}) app]}.
Proof.
  cbv zeta.
  destruct (reducers_register_what_was_persisted conflictEnv (pi Never RunningState None)
              (start {["pi-100" := pi Never RunningState None]})) as [Houtcome _].
  destruct (reducers_register_what_was_persisted (acceptEnv buildOk)
              (pi Never RunningState None)
              (start {["pi-100" := pi Never RunningState None]})) as [_ Hworker].
  split.
  - rewrite (Houtcome runningUpdate); [| reflexivity]. vm_compute. reflexivity.
  - rewrite (Hworker runningExecutor); [| reflexivity]. vm_compute. reflexivity.
Defined.

(** X18.  An event is folded into whatever record the store serves.  When the
    write made from the registry's copy is turned down, the record read back
    by name is the one that gets mutated and written, and the answer of the
    store is filed under the appID it carries: if that is not the appID of
    the event, as after a restart, the entry the event was addressed to stays
    as it was and the event lands in the other entry. *)
Theorem late_event_lands_in_the_served_record {W} (env : Env W) update stale
    (s : CState W) e w2 latest w3 r w4 :
  let m1 := (executorUpdateFunc update stale (world s)).1.1 in
  let m2 := (executorUpdateFunc update latest w3).1.1 in
  runningApps s !! executorStateUpdate.appID update = Some stale →
  Status stale ≠ Status m1 →
  clientUpdate env (Namespace m1) m1 (world s) = (Err e, w2) →
  clientGet env (Namespace m1) (Name m1) w2 = (Ok latest, w3) →
  Status stale ≠ Status m2 →
  clientUpdate env (Namespace m2) m2 w3 = (Ok r, w4) →
  runningApps (processSingleExecutorStateUpdate env update s).2
  = <[AppID (Status r) := r]> (runningApps s)
  ∧ (AppID (Status r) ≠ executorStateUpdate.appID update →
     runningApps (processSingleExecutorStateUpdate env update s).2
       !! executorStateUpdate.appID update = Some stale
     ∧ runningApps (processSingleExecutorStateUpdate env update s).2
         !! AppID (Status r) = Some r).
Proof.
  intros m1 m2 Hreg Hne1 Hu1 Hg Hne2 Hu2.
  assert (Hupd : updateSparkApplicationWithRetries env stale stale
                   (executorUpdateFunc update) s
                 = (Some r, written (fetched s m1 w3 []) m2 w4 [])).
  { unfold updateSparkApplicationWithRetries, maximumUpdateRetries.
    rewrite (updateLoop_refetched env 2 stale stale (executorUpdateFunc update) s
               m1 (world s) [] e w2 latest w3 eq_refl Hne1 Hu1 Hg).
    by rewrite (updateLoop_written env 1 stale latest (executorUpdateFunc update)
                  (fetched s m1 w3 []) m2 w3 [] r w4 eq_refl Hne2 Hu2). }
  assert (Hrun : runningApps (processSingleExecutorStateUpdate env update s).2
                 = <[AppID (Status r) := r]> (runningApps s)).
  { unfold processSingleExecutorStateUpdate, registryLookup, mbind, mret, M_bind, M_ret.
    by rewrite Hreg, Hupd. }
  split; [exact Hrun |]. intros Hother. rewrite Hrun.
  split; [by rewrite lookup_insert_ne | apply lookup_insert_eq].
Qed.

Lemma late_event_lands_in_the_served_record_witness :
  let s := start {["pi-100" := completedPi; "pi-15" := newRun]} in
  let late := executorStateUpdate.mk "pi-100" "pi-exec-1" "1" ExecutorCompletedState in
  let r := setExecutorState (Some {["pi-exec-1" := ExecutorCompletedState]}) newRun in
  runningApps (processSingleExecutorStateUpdate restartedEnv late s).2
  = <[AppID (Status r) := r]> (runningApps s)
  ∧ runningApps (processSingleExecutorStateUpdate restartedEnv late s).2 !! "pi-100"
    = Some completedPi
  ∧ runningApps (processSingleExecutorStateUpdate restartedEnv late s).2 !! "pi-15"
    = Some r.
Proof.
  cbv zeta.
  destruct (late_event_lands_in_the_served_record restartedEnv
              (executorStateUpdate.mk "pi-100" "pi-exec-1" "1" ExecutorCompletedState)
              completedPi (start {["pi-100" := completedPi; "pi-15" := newRun]})
              VersionConflict 1 newRun 2
              (setExecutorState (Some {["pi-exec-1" := ExecutorCompletedState]}) newRun) 3)
    as [Hrun Hkeys]; try reflexivity; try (vm_compute; discriminate).
  split; [exact Hrun |]. apply Hkeys. discriminate.
Defined.
